(** * Einmal: the launch sequence of [App.tsx]

    A shallow embedding of the [App] component of [src/App.tsx]: its
    asynchronous bootstrap ([initialize], [loadAssets], [checkVault],
    [loadSettings], [loadImages], [loadFonts]), the React state it writes
    and the element tree it renders.

    JavaScript runs the component on one thread.  An [async] function runs
    without interruption up to its next [await]; the operation awaited
    settles later, at a moment and with an outcome (fulfilled or rejected)
    chosen by the platform.  The embedding keeps exactly this: programs are
    terms of a small syntax of asynchronous commands, a started program is
    an activation suspended on the operations it awaits, and a launch is
    driven by a list of events, each one settling one operation in flight.

    [src/App.tsx] also carries, after line 211, an earlier version of the
    component that renders three screens without any bootstrap; the
    specification describes the current version, lines 1 to 211, and that
    is the one embedded here.

    The collaborators of [App.tsx] ([./vault], [./secure-storage],
    [./async-storage], [./constants] and the Expo modules) are not part of
    the sources; they are modelled by the contracts of section 6 of the
    specification.  During a launch the stores change through the
    operations of [App] only, an operation takes effect at the moment it
    settles, and a rejected operation leaves its store as it was. *)

From stdpp Require Import base option list strings gmap.

Set Default Proof Using "Type".
Open Scope string_scope.
Open Scope list_scope.

(** ** JavaScript values *)

(** The values that flow through [App.tsx]: what the collaborators return
    and what [Boolean(...)], [!x] and [c ? a : b] coerce.  Numbers do not
    occur. *)
Inductive JsValue : Type :=
| JsUndefined
| JsNull
| JsBoolean (b : bool)
| JsString (s : string)
| JsObject.

(** [Boolean(v)], ECMAScript's ToBoolean. *)
Definition Boolean (v : JsValue) : bool :=
  match v with
  | JsUndefined => false
  | JsNull => false
  | JsBoolean b => b
  | JsString s => negb (String.eqb s "")
  | JsObject => true
  end.

#[global] Instance JsValue_eq_dec : EqDecision JsValue.
Proof. solve_decision. Defined.

(** ** The collaborators *)

(** The state of the splash screen of [expo-splash-screen]. *)
Inductive Splash : Type :=
| SplashAutoHide   (* shown, hidden by the platform on first render *)
| SplashHeld       (* shown, kept until [hideAsync] *)
| SplashHidden.

#[global] Instance Splash_eq_dec : EqDecision Splash.
Proof. solve_decision. Defined.

(** What lives outside the component: the vault, the secure credential
    store, the preference store, the device's biometric enrollment and the
    splash screen. *)
Record World : Type := mkWorld {
  vaultStored : bool;
  password : option string;
  preferences : gmap string string;
  enrolled : bool;
  splash : Splash;
}.

(** The asynchronous operations [App.tsx] calls on its collaborators. *)
Inductive Extern : Type :=
| PreventAutoHideAsync                      (* SplashScreen.preventAutoHideAsync() *)
| HideAsync                                 (* SplashScreen.hideAsync() *)
| DeleteVault                               (* deleteVault() *)
| RemovePassword                            (* secureStorage.removePassword() *)
| StorageClear                              (* storage.clear() *)
| DoesVaultExist                            (* doesVaultExist() *)
| IsEnrolledAsync                           (* LocalAuthentication.isEnrolledAsync() *)
| GetPassword                               (* secureStorage.getPassword() *)
| GetConcealTokens                          (* storage.getConcealTokens() *)
| AssetLoadAsync (modules : list string)    (* Asset.loadAsync([...]) *)
| FontLoadAsync (fonts : list (string * string)). (* Font.loadAsync({...}) *)

#[global] Instance Extern_eq_dec : EqDecision Extern.
Proof. solve_decision. Defined.

(** Modelled from the spec: the key of the conceal-tokens preference in the
    preference store; [./async-storage] is not part of the sources. *)
Definition concealTokensKey : string := "concealTokens".

(** Modelled from the spec: the contracts of [./vault], [./secure-storage]
    and [./async-storage], which are not part of the sources, and of the
    Expo modules (section 6 of the specification).  [perform c w] is the
    value an operation that succeeds resolves to and the world it leaves:
    - vault: check returns a boolean, delete removes the vault;
    - credential store: get returns the credential or [null], remove
      deletes it and is idempotent;
    - preference store: get returns the value stored under the key or
      [null], clear empties the store;
    - enrollment query: returns a boolean;
    - asset and font preloaders: no effect on the stores.
    A value that [App.tsx] discards is modelled as [undefined]. *)
Definition perform (c : Extern) (w : World) : JsValue * World :=
  match c with
  | PreventAutoHideAsync =>
      (JsUndefined, mkWorld (vaultStored w) (password w) (preferences w) (enrolled w) SplashHeld)
  | HideAsync =>
      (JsUndefined, mkWorld (vaultStored w) (password w) (preferences w) (enrolled w) SplashHidden)
  | DeleteVault =>
      (JsUndefined, mkWorld false (password w) (preferences w) (enrolled w) (splash w))
  | RemovePassword =>
      (JsUndefined, mkWorld (vaultStored w) None (preferences w) (enrolled w) (splash w))
  | StorageClear =>
      (JsUndefined, mkWorld (vaultStored w) (password w) ∅ (enrolled w) (splash w))
  | DoesVaultExist => (JsBoolean (vaultStored w), w)
  | IsEnrolledAsync => (JsBoolean (enrolled w), w)
  | GetPassword =>
      (match password w with Some p => JsString p | None => JsNull end, w)
  | GetConcealTokens =>
      (match preferences w !! concealTokensKey with
       | Some v => JsString v
       | None => JsNull
       end, w)
  | AssetLoadAsync _ => (JsUndefined, w)
  | FontLoadAsync _ => (JsUndefined, w)
  end.

(** Modelled from the spec: [configuration] of [./constants], of which
    [App.tsx] reads [shouldReset] only. *)
Record Configuration : Type := mkConfiguration {
  shouldReset : bool;
}.

(** ** The component's state *)

(** [loadedSettings], the object [loadSettings] builds. *)
Record SettingsSnapshot : Type := mkSettings {
  biometricUnlock : bool;
  concealTokens : bool;
}.

#[global] Instance SettingsSnapshot_eq_dec : EqDecision SettingsSnapshot.
Proof. solve_decision. Defined.

(** The three [useState] setters of [App]. *)
Inductive SetState : Type :=
| SetVaultExists (v : JsValue)
| SetInitialSettings (s : SettingsSnapshot)
| SetReady (b : bool).

#[global] Instance SetState_eq_dec : EqDecision SetState.
Proof. solve_decision. Defined.

(** How an operation settled: fulfilled with a value, or rejected. *)
Inductive Settlement : Type :=
| Resolved (v : JsValue)
| Failed.

#[global] Instance Settlement_eq_dec : EqDecision Settlement.
Proof. solve_decision. Defined.

(** What a launch did, oldest first: operations called, operations settled
    and state setters run. *)
Inductive Entry : Type :=
| Called (c : Extern)
| Returned (c : Extern) (r : Settlement)
| Did (s : SetState).

#[global] Instance Entry_eq_dec : EqDecision Entry.
Proof. solve_decision. Defined.

(** The three [useState] cells of [App], the world around the component
    and the history of the launch. *)
Record State : Type := mkState {
  world : World;
  vaultExists : JsValue;                       (* useState(false) *)
  initialSettings : option SettingsSnapshot;   (* useState(null) *)
  isReady : bool;                              (* useState(false) *)
  history : list Entry;
}.

Definition record (e : Entry) (st : State) : State :=
  mkState (world st) (vaultExists st) (initialSettings st) (isReady st)
          (history st ++ [e]).

Definition setState (s : SetState) (st : State) : State :=
  match s with
  | SetVaultExists v =>
      mkState (world st) v (initialSettings st) (isReady st) (history st)
  | SetInitialSettings x =>
      mkState (world st) (vaultExists st) (Some x) (isReady st) (history st)
  | SetReady b =>
      mkState (world st) (vaultExists st) (initialSettings st) b (history st)
  end.

Definition setWorld (w : World) (st : State) : State :=
  mkState w (vaultExists st) (initialSettings st) (isReady st) (history st).

(** ** Asynchronous programs *)

#[local] Set Warnings "-register-all".

(** The bodies of the [async] arrow functions of [App]; all of them return
    [Promise<void>].
    - [Return]: the end of the body;
    - [Await c k]: [const v = await c(); k v];
    - [Do s k]: a synchronous call of a state setter;
    - [AwaitAll ps k]: [await Promise.all([p1, ..., pn]); k]. *)
Inductive Async : Type :=
| Return
| Await (c : Extern) (k : JsValue → Async)
| Do (s : SetState) (k : Async)
| AwaitAll (ps : list Async) (k : Async).

(** [await p(); q]: the rest of a body after an awaited call of another
    [async] function. *)
Fixpoint seq (p q : Async) : Async :=
  match p with
  | Return => q
  | Await c k => Await c (λ v, seq (k v) q)
  | Do s k => Do s (seq k q)
  | AwaitAll ps k => AwaitAll ps (seq k q)
  end.

(** The promise returned by a call of a collaborator. *)
Definition call (c : Extern) : Async := Await c (λ _, Return).

Declare Scope async_scope.
Delimit Scope async_scope with async.
Bind Scope async_scope with Async.
Notation "'let!' x ':=' 'await' c 'in' k" :=
  (Await c (λ x, k%async))
  (at level 10, x name, c at level 9, k at level 200, only parsing) : async_scope.
Notation "p ';;;' q" := (seq p%async q%async)
  (at level 100, q at level 200, right associativity, only parsing) : async_scope.
Notation "'when' b 'then' p" := (if b then p%async else Return)
  (at level 99, b at level 9, p at level 99, only parsing) : async_scope.

(** ** [App.tsx], lines 70 to 139 *)

Definition checkVault : Async :=
  (let! vaultExists := await DoesVaultExist in
   Do (SetVaultExists vaultExists) Return)%async.

Definition loadSettings : Async :=
  (let! areBiometricsEnrolled := await IsEnrolledAsync in
   (when (negb (Boolean areBiometricsEnrolled)) then call RemovePassword) ;;;
   let! storedPassword := await GetPassword in
   let biometricUnlock := Boolean storedPassword in
   let! storedConcealTokens := await GetConcealTokens in
   let concealTokens := Boolean storedConcealTokens in
   let loadedSettings := mkSettings biometricUnlock concealTokens in
   Do (SetInitialSettings loadedSettings) Return)%async.

Definition loadImages : Async :=
  call (AssetLoadAsync ["../assets/logo.png"]).

Definition loadFonts : Async :=
  call (FontLoadAsync
          [("Inter-Regular", "../assets/fonts/Inter-Regular.ttf");
           ("Inter-Medium", "../assets/fonts/Inter-Medium.ttf");
           ("Inter-Light", "../assets/fonts/Inter-Light.ttf");
           ("Inter-Thin", "../assets/fonts/Inter-Thin.ttf");
           ("IBMPlexMono-Regular", "../assets/fonts/IBMPlexMono-Regular.ttf")]).

Definition loadAssets (configuration : Configuration) : Async :=
  ((when (shouldReset configuration) then
      AwaitAll [call DeleteVault; call RemovePassword; call StorageClear] Return) ;;;
   AwaitAll [checkVault; loadSettings; loadImages; loadFonts] Return)%async.

Definition initialize (configuration : Configuration) : Async :=
  (let! _ := await PreventAutoHideAsync in
   loadAssets configuration ;;;
   Do (SetReady true)
   (let! _ := await HideAsync in
    Return))%async.

(** ** Running a program *)

(** A started program: settled, suspended on an operation in flight, or
    suspended on a [Promise.all] whose promises are activations of their
    own. *)
Inductive Activation : Type :=
| Fulfilled
| Rejected (c : Extern)
| Pending (c : Extern) (k : JsValue → Async)
| Joining (children : list Activation) (k : Async).

Definition fulfilled (a : Activation) : bool :=
  match a with
  | Fulfilled => true
  | _ => false
  end.

(** [start p st] runs [p] up to its first suspension.  State setters take
    effect at once; an awaited operation is called and left in flight;
    the promises of a [Promise.all] are started left to right, and the
    body goes on when all of them are fulfilled. *)
Fixpoint start (p : Async) (st : State) : Activation * State :=
  match p with
  | Return => (Fulfilled, st)
  | Await c k => (Pending c k, record (Called c) st)
  | Do s k => start k (record (Did s) (setState s st))
  | AwaitAll ps k =>
      let fix startAll (ps : list Async) (st : State) : list Activation * State :=
        match ps with
        | [] => ([], st)
        | p :: ps =>
            let (a, st1) := start p st in
            let (l, st2) := startAll ps st1 in
            (a :: l, st2)
        end in
      let (children, st') := startAll ps st in
      if forallb fulfilled children then start k st'
      else (Joining children k, st')
  end.

(** An event settles the operation in flight at [target]: the root
    activation for [[]], the [i]-th promise of a [Promise.all] for
    [i :: _].  [succeeds] is the platform's verdict. *)
Record Event : Type := mkEvent {
  target : list nat;
  succeeds : bool;
}.

(** The operation at the target settles.  A rejected operation rejects the
    function awaiting it; a rejected promise of a [Promise.all] rejects the
    [Promise.all], which is never resumed, while its other promises stay
    in flight.  [None]: nothing is in flight at the target. *)
Fixpoint settle (path : list nat) (ok : bool) (a : Activation) (st : State)
  : option (Activation * State) :=
  match path, a with
  | [], Pending c k =>
      if ok then
        let (v, w) := perform c (world st) in
        Some (start (k v) (record (Returned c (Resolved v)) (setWorld w st)))
      else
        Some (Rejected c, record (Returned c Failed) st)
  | i :: path', Joining children k =>
      match children !! i with
      | Some child =>
          match settle path' ok child st with
          | Some (child', st') =>
              let children' := <[i := child']> children in
              if forallb fulfilled children' then Some (start k st')
              else Some (Joining children' k, st')
          | None => None
          end
      | None => None
      end
  | _, _ => None
  end.

(** A launch in progress: the activation of [initialize] and the state. *)
Record Launch : Type := mkLaunch {
  main : Activation;
  state : State;
}.

Definition step (e : Event) (l : Launch) : Launch :=
  match settle (target e) (succeeds e) (main l) (state l) with
  | Some (a, st) => mkLaunch a st
  | None => l
  end.

Definition run (es : list Event) (l : Launch) : Launch :=
  foldl (λ l e, step e l) l es.

(** Mounting [App]: the three cells hold their initial values and the
    effect of [useEffect(..., [])] calls [initialize()]. *)
Definition mount (configuration : Configuration) (w : World) : Launch :=
  let (a, st) := start (initialize configuration)
                       (mkState w (JsBoolean false) None false []) in
  mkLaunch a st.

(** The launches that can be observed. *)
Definition launch (configuration : Configuration) (w : World) (es : list Event)
  : Launch :=
  run es (mount configuration w).

(** ** [App.tsx], lines 141 to 209: what [App] renders *)

Inductive Route : Type :=
| Welcome
| AuthenticationSetup
| Authentication
| Home
| Sorting
| BarcodeScanner
| Settings.

#[global] Instance Route_eq_dec : EqDecision Route.
Proof. solve_decision. Defined.

(** [<Stack.Screen name=... options={{ headerShown: ... }} />]; the header
    is shown unless the options say otherwise. *)
Record Screen : Type := mkScreen {
  name : Route;
  headerShown : bool;
}.

(** [<Stack.Navigator initialRouteName=...>] and its children. *)
Record Navigator : Type := mkNavigator {
  initialRouteName : Route;
  screens : list Screen;
}.

(** The shared application state [GlobalStateProvider] hands to its
    render prop; [App] reads [globalState.vault] only. *)
Record GlobalState : Type := mkGlobalState {
  vault : JsValue;
}.

(** The element [App] returns when it renders: [GlobalStateProvider] with
    its [settings] prop and its render prop. *)
Record Element : Type := mkElement {
  settings : option SettingsSnapshot;
  children : GlobalState → Navigator;
}.

(** The body of [App] after the hooks: [None] is [return null]. *)
Definition App (st : State) : option Element :=
  if isReady st then
    Some (mkElement (initialSettings st) (λ globalState,
      mkNavigator
        (if Boolean (vaultExists st) then Authentication else Welcome)
        (if Boolean (vault globalState) then
           [mkScreen Home true;
            mkScreen Sorting true;
            mkScreen BarcodeScanner false;
            mkScreen Settings true]
         else
           [mkScreen Welcome false;
            mkScreen AuthenticationSetup false;
            mkScreen Authentication false])))
  else None.

(** The routes mounted under the navigator for a shared state: none while
    [App] renders [null]. *)
Definition mounted (st : State) (globalState : GlobalState) : list Route :=
  match App st with
  | Some el => name <$> screens (children el globalState)
  | None => []
  end.

(** The two navigation subgraphs of the specification. *)
Definition PreVault : list Route := [Welcome; AuthenticationSetup; Authentication].
Definition PostVault : list Route := [Home; Sorting; BarcodeScanner; Settings].

(** * The control points of a launch *)

(** The activations of a launch carry closures.  To reason about all
    launches, the places where a launch can be suspended are listed, and
    the launch suspended at each place is written down ([atPhase]); the
    semantics above is then shown to move between these places as the
    transition function [advance] says. *)

(** The promise of one call of a collaborator. *)
Inductive Promise : Type :=
| InFlight
| Kept
| Broken.

(** Where [loadSettings] is suspended, and [LsBroken c] when its call of
    [c] was rejected. *)
Inductive Reconciling : Type :=
| LsQuery
| LsRemove
| LsRead
| LsConceal
| LsEmitted
| LsBroken (c : Extern).

(** Where [initialize] is suspended. *)
Inductive Phase : Type :=
| Splashing (prevent : Promise)
| Resetting (dv rp sc : Promise)
| Loading (cv : Promise) (ls : Reconciling) (im fo : Promise)
| Ready (hide : Promise).

Definition kept (p : Promise) : bool :=
  match p with
  | Kept => true
  | _ => false
  end.

Definition emitted (ls : Reconciling) : bool :=
  match ls with
  | LsEmitted => true
  | _ => false
  end.

Definition settled (ok : bool) : Promise := if ok then Kept else Broken.

Definition whenInFlight {A : Type} (p : Promise) (x : A) : option A :=
  match p with
  | InFlight => Some x
  | _ => None
  end.

Definition images : Extern := AssetLoadAsync ["../assets/logo.png"].

Definition fonts : Extern :=
  FontLoadAsync
    [("Inter-Regular", "../assets/fonts/Inter-Regular.ttf");
     ("Inter-Medium", "../assets/fonts/Inter-Medium.ttf");
     ("Inter-Light", "../assets/fonts/Inter-Light.ttf");
     ("Inter-Thin", "../assets/fonts/Inter-Thin.ttf");
     ("IBMPlexMono-Regular", "../assets/fonts/IBMPlexMono-Regular.ttf")].

(** The rest of [initialize] after [await loadAssets()]. *)
Definition afterLoads : Async :=
  Do (SetReady true) (Await HideAsync (λ _, Return)).

(** The rest of [loadSettings] after the [if]. *)
Definition readSettings : Async :=
  Await GetPassword (λ storedPassword,
    Await GetConcealTokens (λ storedConcealTokens,
      Do (SetInitialSettings
            (mkSettings (Boolean storedPassword) (Boolean storedConcealTokens)))
         Return)).

Definition promiseOf (c : Extern) (p : Promise) : Activation :=
  match p with
  | InFlight => Pending c (λ _, Return)
  | Kept => Fulfilled
  | Broken => Rejected c
  end.

Section Control.

Variable configuration : Configuration.
Variable w0 : World.

(** The stores when the four loads start: wiped by a reset, as the
    launch found them otherwise. *)
Definition vaultAtLoads : bool :=
  if shouldReset configuration then false else vaultStored w0.
Definition passwordAtLoads : option string :=
  if shouldReset configuration then None else password w0.
Definition preferencesAtLoads : gmap string string :=
  if shouldReset configuration then ∅ else preferences w0.

(** The credential store once [loadSettings] is past its [if]. *)
Definition passwordReconciled : option string :=
  if enrolled w0 then passwordAtLoads else None.

Definition passwordRead : JsValue :=
  match passwordReconciled with
  | Some p => JsString p
  | None => JsNull
  end.

Definition concealTokensRead : JsValue :=
  match preferencesAtLoads !! concealTokensKey with
  | Some v => JsString v
  | None => JsNull
  end.

Definition snapshot : SettingsSnapshot :=
  mkSettings (Boolean passwordRead) (Boolean concealTokensRead).

Definition reconcilingAt (ls : Reconciling) : Activation :=
  match ls with
  | LsQuery =>
      Pending IsEnrolledAsync (λ areBiometricsEnrolled,
        seq (if negb (Boolean areBiometricsEnrolled)
             then call RemovePassword else Return)
            readSettings)
  | LsRemove => Pending RemovePassword (λ _, readSettings)
  | LsRead =>
      Pending GetPassword (λ storedPassword,
        Await GetConcealTokens (λ storedConcealTokens,
          Do (SetInitialSettings
                (mkSettings (Boolean storedPassword)
                            (Boolean storedConcealTokens)))
             Return))
  | LsConceal =>
      Pending GetConcealTokens (λ storedConcealTokens,
        Do (SetInitialSettings
              (mkSettings (Boolean passwordRead) (Boolean storedConcealTokens)))
           Return)
  | LsEmitted => Fulfilled
  | LsBroken c => Rejected c
  end.

(** Has [loadSettings] got past its [if]? *)
Definition reconciled (ls : Reconciling) : bool :=
  match ls with
  | LsQuery | LsRemove => false
  | LsRead | LsConceal | LsEmitted => true
  | LsBroken c =>
      match c with
      | GetPassword | GetConcealTokens => true
      | _ => false
      end
  end.

Definition mainAt (ph : Phase) : Activation :=
  match ph with
  | Splashing InFlight =>
      Pending PreventAutoHideAsync
              (λ _, seq (loadAssets configuration) afterLoads)
  | Splashing Kept => Fulfilled
  | Splashing Broken => Rejected PreventAutoHideAsync
  | Resetting dv rp sc =>
      Joining [promiseOf DeleteVault dv; promiseOf RemovePassword rp;
               promiseOf StorageClear sc]
              (AwaitAll [checkVault; loadSettings; loadImages; loadFonts]
                        afterLoads)
  | Loading cv ls im fo =>
      Joining [match cv with
               | InFlight =>
                   Pending DoesVaultExist (λ v, Do (SetVaultExists v) Return)
               | Kept => Fulfilled
               | Broken => Rejected DoesVaultExist
               end;
               reconcilingAt ls;
               promiseOf images im;
               promiseOf fonts fo]
              afterLoads
  | Ready hide => promiseOf HideAsync hide
  end.

Definition worldAt (ph : Phase) : World :=
  match ph with
  | Splashing _ => w0
  | Resetting dv rp sc =>
      mkWorld (if kept dv then false else vaultStored w0)
              (if kept rp then None else password w0)
              (if kept sc then ∅ else preferences w0)
              (enrolled w0) SplashHeld
  | Loading cv ls im fo =>
      mkWorld vaultAtLoads
              (if reconciled ls then passwordReconciled else passwordAtLoads)
              preferencesAtLoads (enrolled w0) SplashHeld
  | Ready hide =>
      mkWorld vaultAtLoads passwordReconciled preferencesAtLoads (enrolled w0)
              (if kept hide then SplashHidden else SplashHeld)
  end.

Definition vaultExistsAt (ph : Phase) : JsValue :=
  match ph with
  | Loading Kept _ _ _ | Ready _ => JsBoolean vaultAtLoads
  | _ => JsBoolean false
  end.

Definition initialSettingsAt (ph : Phase) : option SettingsSnapshot :=
  match ph with
  | Loading _ LsEmitted _ _ | Ready _ => Some snapshot
  | _ => None
  end.

Definition isReadyAt (ph : Phase) : bool :=
  match ph with
  | Ready _ => true
  | _ => false
  end.

(** The launch suspended at [ph] with history [h]. *)
Definition atPhase (ph : Phase) (h : list Entry) : Launch :=
  mkLaunch (mainAt ph)
           (mkState (worldAt ph) (vaultExistsAt ph) (initialSettingsAt ph)
                    (isReadyAt ph) h).

(** *** The transitions *)

Definition loadsCalled : list Entry :=
  [Called DoesVaultExist; Called IsEnrolledAsync; Called images; Called fonts].

Definition resetCalled : list Entry :=
  [Called DeleteVault; Called RemovePassword; Called StorageClear].

Definition returned (c : Extern) (ok : bool) : Entry :=
  Returned c (if ok then Resolved JsUndefined else Failed).

(** [loadSettings] resumes: the place it reaches and what it adds to
    the history. *)
Definition reconcile (ok : bool) (ls : Reconciling)
  : option (Reconciling * list Entry) :=
  match ls with
  | LsQuery =>
      if ok then
        Some (if enrolled w0 then LsRead else LsRemove,
              [Returned IsEnrolledAsync (Resolved (JsBoolean (enrolled w0)));
               Called (if enrolled w0 then GetPassword else RemovePassword)])
      else Some (LsBroken IsEnrolledAsync, [Returned IsEnrolledAsync Failed])
  | LsRemove =>
      if ok then
        Some (LsRead, [Returned RemovePassword (Resolved JsUndefined);
                       Called GetPassword])
      else Some (LsBroken RemovePassword, [Returned RemovePassword Failed])
  | LsRead =>
      if ok then
        Some (LsConceal, [Returned GetPassword (Resolved passwordRead);
                          Called GetConcealTokens])
      else Some (LsBroken GetPassword, [Returned GetPassword Failed])
  | LsConceal =>
      if ok then
        Some (LsEmitted,
              [Returned GetConcealTokens (Resolved concealTokensRead);
               Did (SetInitialSettings snapshot)])
      else Some (LsBroken GetConcealTokens, [Returned GetConcealTokens Failed])
  | LsEmitted | LsBroken _ => None
  end.

Definition checked (ok : bool) : list Entry :=
  if ok then
    [Returned DoesVaultExist (Resolved (JsBoolean vaultAtLoads));
     Did (SetVaultExists (JsBoolean vaultAtLoads))]
  else [Returned DoesVaultExist Failed].

(** The join of the three deletions, then of the four loads. *)
Definition joinReset (dv rp sc : Promise) (es : list Entry)
  : Phase * list Entry :=
  if kept dv && kept rp && kept sc
  then (Loading InFlight LsQuery InFlight InFlight, es ++ loadsCalled)
  else (Resetting dv rp sc, es).

Definition joinLoads (cv : Promise) (ls : Reconciling) (im fo : Promise)
           (es : list Entry) : Phase * list Entry :=
  if kept cv && emitted ls && kept im && kept fo
  then (Ready InFlight, es ++ [Did (SetReady true); Called HideAsync])
  else (Loading cv ls im fo, es).

(** The place an event leads to and the entries it adds to the history;
    [None] when nothing is in flight at its target. *)
Definition advance (e : Event) (ph : Phase) : option (Phase * list Entry) :=
  let ok := succeeds e in
  match ph with
  | Splashing prevent =>
      match target e with
      | [] =>
          whenInFlight prevent
            (if ok then
               if shouldReset configuration
               then (Resetting InFlight InFlight InFlight,
                     returned PreventAutoHideAsync true :: resetCalled)
               else (Loading InFlight LsQuery InFlight InFlight,
                     returned PreventAutoHideAsync true :: loadsCalled)
             else (Splashing Broken, [returned PreventAutoHideAsync false]))
      | _ => None
      end
  | Resetting dv rp sc =>
      match target e with
      | [0] =>
          whenInFlight dv
            (joinReset (settled ok) rp sc [returned DeleteVault ok])
      | [1] =>
          whenInFlight rp
            (joinReset dv (settled ok) sc [returned RemovePassword ok])
      | [2] =>
          whenInFlight sc
            (joinReset dv rp (settled ok) [returned StorageClear ok])
      | _ => None
      end
  | Loading cv ls im fo =>
      match target e with
      | [0] =>
          whenInFlight cv (joinLoads (settled ok) ls im fo (checked ok))
      | [1] =>
          match reconcile ok ls with
          | Some (ls', es) => Some (joinLoads cv ls' im fo es)
          | None => None
          end
      | [2] =>
          whenInFlight im
            (joinLoads cv ls (settled ok) fo [returned images ok])
      | [3] =>
          whenInFlight fo
            (joinLoads cv ls im (settled ok) [returned fonts ok])
      | _ => None
      end
  | Ready hide =>
      match target e with
      | [] => whenInFlight hide (Ready (settled ok), [returned HideAsync ok])
      | _ => None
      end
  end.

(** [loadSettings] calls [removePassword] only on a device without
    enrolled biometrics. *)
Definition wellPlaced (ph : Phase) : Prop :=
  match ph with
  | Resetting _ _ _ => shouldReset configuration = true
  | Loading _ LsRemove _ _ => enrolled w0 = false
  | Loading _ (LsBroken RemovePassword) _ _ => enrolled w0 = false
  | _ => True
  end.

End Control.

(** Entries reach the history one at a time. *)
Definition recorded (h es : list Entry) : list Entry :=
  foldl (λ h e, h ++ [e]) h es.

(** ** The history at each control point *)

(** The four loads run interleaved, so the history of a launch is not a
    function of the place it has reached.  What is fixed is the part of
    the history that each promise wrote, in the order it wrote it. *)

(** The operation an entry is about. *)
Definition operation (e : Entry) : option Extern :=
  match e with
  | Called c | Returned c _ => Some c
  | Did _ => None
  end.

(** The four promises of the second [Promise.all]. *)
Inductive Load : Type :=
| CheckVault
| LoadSettings
| LoadImages
| LoadFonts.

#[global] Instance Load_eq_dec : EqDecision Load.
Proof. solve_decision. Defined.

(** The load that writes an entry. *)
Definition writer (e : Entry) : option Load :=
  match e with
  | Called c | Returned c _ =>
      match c with
      | DoesVaultExist => Some CheckVault
      | IsEnrolledAsync | RemovePassword | GetPassword | GetConcealTokens =>
          Some LoadSettings
      | AssetLoadAsync _ => Some LoadImages
      | FontLoadAsync _ => Some LoadFonts
      | _ => None
      end
  | Did (SetVaultExists _) => Some CheckVault
  | Did (SetInitialSettings _) => Some LoadSettings
  | Did (SetReady _) => None
  end.

(** The entries of [h] with key [k], in order. *)
Definition part {K : Type} `{EqDecision K} (key : Entry → option K) (k : K)
           (h : list Entry) : list Entry :=
  List.filter (λ e, bool_decide (key e = Some k)) h.

(** What the promise of one call has written. *)
Definition outcome (c : Extern) (p : Promise) : list Entry :=
  match p with
  | InFlight => []
  | Kept => [Returned c (Resolved JsUndefined)]
  | Broken => [Returned c Failed]
  end.

Definition splashHeld : list Entry :=
  [Called PreventAutoHideAsync;
   Returned PreventAutoHideAsync (Resolved JsUndefined)].

Section Chronicle.

Variable configuration : Configuration.
Variable w0 : World.

(** What the three deletions have written. *)
Definition ResetChronicle (dv rp sc : Promise) (hr : list Entry) : Prop :=
  Forall (λ e, ∃ c r, e = Returned c r ∧
                      c ∈ [DeleteVault; RemovePassword; StorageClear]) hr ∧
  part operation DeleteVault hr = outcome DeleteVault dv ∧
  part operation RemovePassword hr = outcome RemovePassword rp ∧
  part operation StorageClear hr = outcome StorageClear sc.

(** The history up to the moment the four loads are called. *)
Definition Booted (hb : list Entry) : Prop :=
  if shouldReset configuration then
    ∃ hr, hb = splashHeld ++ resetCalled ++ hr ∧
          ResetChronicle Kept Kept Kept hr
  else hb = splashHeld.

Definition checkedSoFar (cv : Promise) : list Entry :=
  match cv with
  | InFlight => []
  | Kept => checked configuration w0 true
  | Broken => checked configuration w0 false
  end.

Definition queried : list Entry :=
  [Returned IsEnrolledAsync (Resolved (JsBoolean (enrolled w0)))].

Definition removed : list Entry :=
  if enrolled w0 then []
  else [Called RemovePassword; Returned RemovePassword (Resolved JsUndefined)].

Definition reconciledSoFar (ls : Reconciling) : list Entry :=
  match ls with
  | LsQuery => []
  | LsRemove => queried ++ [Called RemovePassword]
  | LsRead => queried ++ removed ++ [Called GetPassword]
  | LsConceal =>
      queried ++ removed ++
      [Called GetPassword;
       Returned GetPassword (Resolved (passwordRead configuration w0));
       Called GetConcealTokens]
  | LsEmitted =>
      queried ++ removed ++
      [Called GetPassword;
       Returned GetPassword (Resolved (passwordRead configuration w0));
       Called GetConcealTokens;
       Returned GetConcealTokens (Resolved (concealTokensRead configuration w0));
       Did (SetInitialSettings (snapshot configuration w0))]
  | LsBroken c =>
      match c with
      | IsEnrolledAsync => [Returned IsEnrolledAsync Failed]
      | RemovePassword =>
          queried ++ [Called RemovePassword; Returned RemovePassword Failed]
      | GetPassword =>
          queried ++ removed ++
          [Called GetPassword; Returned GetPassword Failed]
      | GetConcealTokens =>
          queried ++ removed ++
          [Called GetPassword;
           Returned GetPassword (Resolved (passwordRead configuration w0));
           Called GetConcealTokens;
           Returned GetConcealTokens Failed]
      | _ => []
      end
  end.

(** What the four loads have written since they were called. *)
Definition LoadsChronicle (cv : Promise) (ls : Reconciling) (im fo : Promise)
           (hl : list Entry) : Prop :=
  Forall (λ e, is_Some (writer e)) hl ∧
  part writer CheckVault hl = checkedSoFar cv ∧
  part writer LoadSettings hl = reconciledSoFar ls ∧
  part writer LoadImages hl = outcome images im ∧
  part writer LoadFonts hl = outcome fonts fo.

(** The histories a launch suspended at [ph] can have. *)
Definition Chronicle (ph : Phase) (h : list Entry) : Prop :=
  match ph with
  | Splashing prevent =>
      h = Called PreventAutoHideAsync :: outcome PreventAutoHideAsync prevent ∧
      prevent ≠ Kept
  | Resetting dv rp sc =>
      ∃ hr, h = splashHeld ++ resetCalled ++ hr ∧ ResetChronicle dv rp sc hr
  | Loading cv ls im fo =>
      ∃ hb hl, h = hb ++ loadsCalled ++ hl ∧ Booted hb ∧
               LoadsChronicle cv ls im fo hl
  | Ready hide =>
      ∃ hb hl, h = hb ++ loadsCalled ++ hl ++
                   [Did (SetReady true); Called HideAsync] ++
                   outcome HideAsync hide ∧
               Booted hb ∧ LoadsChronicle Kept LsEmitted Kept Kept hl
  end.

End Chronicle.

(** The history of the launch suspended at [ph] in which the promises of
    each [Promise.all] settled from left to right.  Every history at [ph]
    is an interleaving of it. *)
Definition inOrder (configuration : Configuration) (w0 : World) (ph : Phase)
  : list Entry :=
  let booted :=
    splashHeld ++
    (if shouldReset configuration then
       resetCalled ++ outcome DeleteVault Kept ++ outcome RemovePassword Kept ++
       outcome StorageClear Kept
     else []) in
  match ph with
  | Splashing prevent =>
      Called PreventAutoHideAsync :: outcome PreventAutoHideAsync prevent
  | Resetting dv rp sc =>
      splashHeld ++ resetCalled ++ outcome DeleteVault dv ++
      outcome RemovePassword rp ++ outcome StorageClear sc
  | Loading cv ls im fo =>
      booted ++ loadsCalled ++ checkedSoFar configuration w0 cv ++
      reconciledSoFar configuration w0 ls ++ outcome images im ++
      outcome fonts fo
  | Ready hide =>
      booted ++ loadsCalled ++ checkedSoFar configuration w0 Kept ++
      reconciledSoFar configuration w0 LsEmitted ++ outcome images Kept ++
      outcome fonts Kept ++ [Did (SetReady true); Called HideAsync] ++
      outcome HideAsync hide
  end.

(** A launch whose four loads have been called: its history is what came
    before the loads ([hb]), the four calls, what the loads wrote ([hl])
    and what [initialize] did after them ([tl]); its stores are as the
    loads found them, but for the credential once [loadSettings], now at
    [ls], is past its [if]. *)
Definition LoadsStarted (configuration : Configuration) (w0 : World) (l : Launch)
           (ls : Reconciling) (hb hl tl : list Entry) : Prop :=
  ∃ cv im fo,
    history (state l) = hb ++ loadsCalled ++ hl ++ tl ∧
    Booted configuration hb ∧
    LoadsChronicle configuration w0 cv ls im fo hl ∧
    (∀ x, x ∈ tl → writer x = None) ∧
    (ls = LsRemove ∨ ls = LsBroken RemovePassword → enrolled w0 = false) ∧
    world (state l) =
      mkWorld (vaultAtLoads configuration w0)
              (if reconciled ls then passwordReconciled configuration w0
               else passwordAtLoads configuration w0)
              (preferencesAtLoads configuration w0) (enrolled w0)
              (splash (world (state l))) ∧
    initialSettings (state l) =
      (if emitted ls then Some (snapshot configuration w0) else None) ∧
    vaultExists (state l) =
      (if kept cv then JsBoolean (vaultAtLoads configuration w0)
       else JsBoolean false).

(** ** Vocabulary of the specification *)

(** A load has completed successfully when the last statement of its body
    has run. *)
Definition completed (l : Load) (h : list Entry) : Prop :=
  match l with
  | CheckVault => ∃ v, Did (SetVaultExists v) ∈ h
  | LoadSettings => ∃ s, Did (SetInitialSettings s) ∈ h
  | LoadImages => ∃ v, Returned images (Resolved v) ∈ h
  | LoadFonts => ∃ v, Returned fonts (Resolved v) ∈ h
  end.

(** A load has failed when an operation it awaits was rejected. *)
Definition failed (l : Load) (h : list Entry) : Prop :=
  ∃ c, writer (Returned c Failed) = Some l ∧ Returned c Failed ∈ h.

(** How often an entry occurs in a history. *)
Definition occurrences (e : Entry) (h : list Entry) : nat :=
  length (List.filter (λ x, bool_decide (x = e)) h).

(** ** Sample launches *)

(** A schedule on which every operation succeeds and a launch runs to its
    end, with or without a reset, on a device with or without enrolled
    biometrics; events that find nothing in flight are skipped. *)
Definition allSucceed : list Event :=
  [mkEvent [] true;
   mkEvent [0] true; mkEvent [1] true; mkEvent [2] true;
   mkEvent [0] true;
   mkEvent [1] true; mkEvent [1] true; mkEvent [1] true; mkEvent [1] true;
   mkEvent [2] true; mkEvent [3] true;
   mkEvent [] true].

(** A schedule for a launch without a reset on which the vault check
    succeeds and the image preload is rejected. *)
Definition imagesFail : list Event :=
  [mkEvent [] true; mkEvent [0] true; mkEvent [2] false].

(** A device with a vault, a stored credential, the conceal-tokens
    preference set, and biometrics enrolled or not. *)
Definition device (enrolled : bool) : World :=
  mkWorld true (Some "correct horse") {[ concealTokensKey := "true" ]}
          enrolled SplashAutoHide.

(** A device without a vault on which biometrics are no longer enrolled
    while a credential is still stored. *)
Definition deviceAfterUnenrolling : World :=
  mkWorld false (Some "correct horse") {[ concealTokensKey := "true" ]}
          false SplashAutoHide.

(** A device whose preference store holds the empty string under the
    conceal-tokens key. *)
Definition deviceWithEmptyPreference : World :=
  mkWorld true (Some "correct horse") {[ concealTokensKey := "" ]}
          true SplashAutoHide.

(** ** Vocabulary of the further properties *)

(** Nothing is in flight: no event changes the launch. *)
Definition quiescent (l : Launch) : Prop := ∀ e, step e l = l.

(** [initialize] has run to its end. *)
Definition finished (l : Launch) : Prop :=
  main l = Fulfilled ∧ isReady (state l) = true ∧
  splash (world (state l)) = SplashHidden.

(** The operations [App.tsx] calls, with the arguments it calls them with. *)
Definition calledByApp : list Extern :=
  [PreventAutoHideAsync; HideAsync; DeleteVault; RemovePassword; StorageClear;
   DoesVaultExist; IsEnrolledAsync; GetPassword; GetConcealTokens; images; fonts].

(** The operations of [loadSettings]. *)
Definition calledByLoadSettings : list Extern :=
  [IsEnrolledAsync; RemovePassword; GetPassword; GetConcealTokens].

(** Four successful settlements of what [loadSettings] awaits. *)
Definition loadSettingsSucceeds : list Event :=
  [mkEvent [1] true; mkEvent [1] true; mkEvent [1] true; mkEvent [1] true].

(** What [getPassword] and [getConcealTokens] would resolve to now. *)
Definition credentialNow (st : State) : JsValue := (perform GetPassword (world st)).1.
Definition concealTokensNow (st : State) : JsValue :=
  (perform GetConcealTokens (world st)).1.

(** A control point that is not past a join it has completed, and at which
    [loadSettings], if rejected, was rejected by one of its operations. *)
Definition unjoined (ph : Phase) : Prop :=
  match ph with
  | Splashing prevent => prevent ≠ Kept
  | Resetting dv rp sc => kept dv && kept rp && kept sc = false
  | Loading cv ls im fo =>
      kept cv && emitted ls && kept im && kept fo = false ∧
      ∀ c, ls = LsBroken c → c ∈ calledByLoadSettings
  | Ready _ => True
  end.

(** A reset in which a deletion was rejected. *)
Definition resetBroken (ph : Phase) : Prop :=
  match ph with
  | Resetting dv rp sc => dv = Broken ∨ rp = Broken ∨ sc = Broken
  | _ => False
  end.

(** * Lemmas *)

Lemma mount_atPhase (configuration : Configuration) (w0 : World) :
  mount configuration w0 =
    atPhase configuration w0 (Splashing InFlight) [Called PreventAutoHideAsync].
Proof. reflexivity. Qed.

Lemma recorded_app (h es : list Entry) : recorded h es = h ++ es.
Proof.
  revert h; induction es as [|e es IH]; intros h; cbn.
  - by rewrite app_nil_r.
  - unfold recorded in IH. by rewrite IH, <- app_assoc.
Qed.

Lemma step_atPhase_recorded (configuration : Configuration) (w0 : World)
      (e : Event) (ph : Phase) (h : list Entry) :
  wellPlaced configuration w0 ph →
  step e (atPhase configuration w0 ph h) =
    match advance configuration w0 e ph with
    | Some (ph', es) => atPhase configuration w0 ph' (recorded h es)
    | None => atPhase configuration w0 ph h
    end.
Proof.
  destruct configuration as [sr], w0 as [v p m en s], e as [path ok].
  destruct sr, en, ph as [[]|[] [] []|[] [] [] []|[]];
    cbn [wellPlaced shouldReset enrolled]; intros Hwp; try discriminate Hwp;
    destruct path as [|[|[|[|[|i]]]] [|j path]], ok; reflexivity.
Qed.

Lemma step_atPhase (configuration : Configuration) (w0 : World)
      (e : Event) (ph : Phase) (h : list Entry) :
  wellPlaced configuration w0 ph →
  step e (atPhase configuration w0 ph h) =
    match advance configuration w0 e ph with
    | Some (ph', es) => atPhase configuration w0 ph' (h ++ es)
    | None => atPhase configuration w0 ph h
    end.
Proof.
  intros Hwp. rewrite step_atPhase_recorded by done.
  destruct (advance configuration w0 e ph) as [[ph' es]|]; [|done].
  by rewrite recorded_app.
Qed.

Lemma advance_wellPlaced (configuration : Configuration) (w0 : World)
      (e : Event) (ph ph' : Phase) (es : list Entry) :
  wellPlaced configuration w0 ph →
  advance configuration w0 e ph = Some (ph', es) →
  wellPlaced configuration w0 ph'.
Proof.
  destruct configuration as [sr], w0 as [v p m en s], e as [path ok].
  destruct sr, en, ph as [[]|[] [] []|[] [] [] []|[]];
    cbn [wellPlaced shouldReset enrolled]; intros Hwp; try discriminate Hwp;
    destruct path as [|[|[|[|[|i]]]] [|j path]], ok;
    cbn; intros [= <- <-]; done.
Qed.

(** ** Parts of a history *)

Section Parts.

Context {K : Type} `{EqDecision K} (key : Entry → option K).

Lemma part_app (k : K) (h1 h2 : list Entry) :
  part key k (h1 ++ h2) = part key k h1 ++ part key k h2.
Proof. apply List.filter_app. Qed.

Lemma elem_of_part (k : K) (e : Entry) (h : list Entry) :
  e ∈ part key k h ↔ e ∈ h ∧ key e = Some k.
Proof.
  unfold part. rewrite !list_elem_of_In, List.filter_In, bool_decide_eq_true.
  done.
Qed.

(** An entry of a part sits in the history between the entries that
    precede it in the part and those that follow it. *)
Lemma part_split (k : K) (h l1 l2 : list Entry) (e : Entry) :
  part key k h = l1 ++ e :: l2 →
  ∃ h1 h2, h = h1 ++ e :: h2 ∧ part key k h1 = l1 ∧ part key k h2 = l2.
Proof.
  revert l1; induction h as [|x h IH]; intros l1; cbn.
  - by destruct l1.
  - case_bool_decide as Hx.
    + destruct l1 as [|y l1]; cbn; intros [= <- Hrest].
      * exists [], h. cbn. done.
      * destruct (IH _ Hrest) as (h1 & h2 & -> & <- & <-).
        exists (x :: h1), h2. cbn. by rewrite bool_decide_true.
    + intros Hrest. destruct (IH _ Hrest) as (h1 & h2 & -> & <- & <-).
      exists (x :: h1), h2. cbn. by rewrite bool_decide_false.
Qed.

End Parts.

Lemma reconcile_reconciledSoFar (configuration : Configuration) (w0 : World)
      (ok : bool) (ls ls' : Reconciling) (es : list Entry) :
  (ls = LsRemove → enrolled w0 = false) →
  reconcile configuration w0 ok ls = Some (ls', es) →
  reconciledSoFar configuration w0 ls' = reconciledSoFar configuration w0 ls ++ es ∧
  Forall (λ e, writer e = Some LoadSettings) es.
Proof.
  destruct w0 as [v p m en s].
  destruct ls, ok, en; cbn; intros Hen; try (by specialize (Hen eq_refl));
    intros [= <- <-]; split; try reflexivity;
    repeat first [ apply Forall_nil_2 | apply Forall_cons_2; [reflexivity|] ].
Qed.

Lemma part_writer_other (l l' : Load) (es : list Entry) :
  l ≠ l' →
  Forall (λ e, writer e = Some l) es →
  part writer l' es = [].
Proof.
  intros Hne. induction 1 as [|e es He _ IH]; [done|].
  cbn. rewrite bool_decide_false by congruence. done.
Qed.

Lemma part_writer_own (l : Load) (es : list Entry) :
  Forall (λ e, writer e = Some l) es →
  part writer l es = es.
Proof.
  induction 1 as [|e es He _ IH]; [done|].
  cbn. rewrite bool_decide_true by done. by f_equal.
Qed.

Section ChronicleSteps.

Variable configuration : Configuration.
Variable w0 : World.

Lemma LoadsChronicle_extend (l : Load) (cv cv' : Promise) (ls ls' : Reconciling)
      (im im' fo fo' : Promise) (hl es : list Entry) :
  LoadsChronicle configuration w0 cv ls im fo hl →
  Forall (λ e, writer e = Some l) es →
  checkedSoFar configuration w0 cv' =
    checkedSoFar configuration w0 cv ++ part writer CheckVault es →
  reconciledSoFar configuration w0 ls' =
    reconciledSoFar configuration w0 ls ++ part writer LoadSettings es →
  outcome images im' = outcome images im ++ part writer LoadImages es →
  outcome fonts fo' = outcome fonts fo ++ part writer LoadFonts es →
  LoadsChronicle configuration w0 cv' ls' im' fo' (hl ++ es).
Proof.
  intros (HF & Hcv & Hls & Him & Hfo) Hes Hcv' Hls' Him' Hfo'.
  unfold LoadsChronicle. rewrite !part_app, Hcv, Hls, Him, Hfo.
  split_and!; try done.
  apply Forall_app; split; [done|].
  eapply Forall_impl; [exact Hes|]. intros e ->. by eexists.
Qed.

Lemma joinLoads_Chronicle (cv : Promise) (ls : Reconciling) (im fo : Promise)
      (hb hl es : list Entry) :
  Booted configuration hb →
  LoadsChronicle configuration w0 cv ls im fo (hl ++ es) →
  Chronicle configuration w0 (joinLoads cv ls im fo es).1
            ((hb ++ loadsCalled ++ hl) ++ (joinLoads cv ls im fo es).2).
Proof.
  intros Hb Hl. unfold joinLoads.
  destruct (kept cv && emitted ls && kept im && kept fo) eqn:Hall;
    cbn [fst snd Chronicle].
  - destruct cv, ls, im, fo; try discriminate Hall.
    exists hb, (hl ++ es). split; [|done].
    cbn [outcome]. by rewrite <- !app_assoc, app_nil_r.
  - exists hb, (hl ++ es). split; [|done]. by rewrite <- !app_assoc.
Qed.

Lemma ResetChronicle_extend (c : Extern) (ok : bool)
      (dv dv' rp rp' sc sc' : Promise) (hr : list Entry) :
  ResetChronicle dv rp sc hr →
  c ∈ [DeleteVault; RemovePassword; StorageClear] →
  outcome DeleteVault dv' =
    outcome DeleteVault dv ++ part operation DeleteVault [returned c ok] →
  outcome RemovePassword rp' =
    outcome RemovePassword rp ++ part operation RemovePassword [returned c ok] →
  outcome StorageClear sc' =
    outcome StorageClear sc ++ part operation StorageClear [returned c ok] →
  ResetChronicle dv' rp' sc' (hr ++ [returned c ok]).
Proof.
  intros (HF & Hdv & Hrp & Hsc) Hc Hdv' Hrp' Hsc'.
  unfold ResetChronicle. rewrite !part_app, Hdv, Hrp, Hsc.
  split_and!; try done.
  apply Forall_app; split; [done|].
  apply Forall_cons_2; [|done]. unfold returned. eauto.
Qed.

Lemma joinReset_Chronicle (dv rp sc : Promise) (hr es : list Entry) :
  shouldReset configuration = true →
  ResetChronicle dv rp sc (hr ++ es) →
  Chronicle configuration w0 (joinReset dv rp sc es).1
            ((splashHeld ++ resetCalled ++ hr) ++ (joinReset dv rp sc es).2).
Proof.
  intros Hsr Hr. unfold joinReset.
  destruct (kept dv && kept rp && kept sc) eqn:Hall; cbn [fst snd Chronicle].
  - destruct dv, rp, sc; try discriminate Hall.
    exists (splashHeld ++ resetCalled ++ hr ++ es), []. split_and!.
    + rewrite <- !app_assoc. by rewrite app_nil_r.
    + unfold Booted. rewrite Hsr. eauto.
    + split_and!; done.
  - exists (hr ++ es). split; [|done]. by rewrite <- !app_assoc.
Qed.

Lemma advance_Chronicle (e : Event) (ph ph' : Phase) (h es : list Entry) :
  wellPlaced configuration w0 ph →
  Chronicle configuration w0 ph h →
  advance configuration w0 e ph = Some (ph', es) →
  Chronicle configuration w0 ph' (h ++ es).
Proof.
  destruct e as [path ok]. unfold advance. cbn [target succeeds].
  destruct ph as [prevent|dv rp sc|cv ls im fo|hide].
  - (* the splash screen is being held *)
    intros _ [-> _].
    destruct path; [|discriminate]. destruct prevent; try discriminate.
    destruct ok; [destruct (shouldReset configuration) eqn:Hsr|];
      intros [= <- <-]; cbn.
    + exists []. split; [done|]. split_and!; done.
    + exists splashHeld, []. split_and!; [done| |split_and!; done].
      unfold Booted. by rewrite Hsr.
    + done.
  - (* the three deletions *)
    cbn [wellPlaced]. intros Hsr (hr & -> & Hr).
    destruct path as [|[|[|[|i]]] [|j path]]; try discriminate.
    + destruct dv; try discriminate. intros [= Hj].
      rewrite (surjective_pairing (joinReset _ _ _ _)) in Hj.
      injection Hj as <- <-. apply joinReset_Chronicle; [done|].
      eapply ResetChronicle_extend; eauto; [set_solver|..];
        destruct ok; cbn; by rewrite ?app_nil_r.
    + destruct rp; try discriminate. intros [= Hj].
      rewrite (surjective_pairing (joinReset _ _ _ _)) in Hj.
      injection Hj as <- <-. apply joinReset_Chronicle; [done|].
      eapply ResetChronicle_extend; eauto; [set_solver|..];
        destruct ok; cbn; by rewrite ?app_nil_r.
    + destruct sc; try discriminate. intros [= Hj].
      rewrite (surjective_pairing (joinReset _ _ _ _)) in Hj.
      injection Hj as <- <-. apply joinReset_Chronicle; [done|].
      eapply ResetChronicle_extend; eauto; [set_solver|..];
        destruct ok; cbn; by rewrite ?app_nil_r.
  - (* the four loads *)
    intros Hwp (hb & hl & -> & Hb & Hl).
    destruct path as [|[|[|[|[|i]]]] [|j path]]; try discriminate.
    + destruct cv; try discriminate. intros [= Hj].
      rewrite (surjective_pairing (joinLoads _ _ _ _ _)) in Hj.
      injection Hj as <- <-. apply joinLoads_Chronicle; [done|].
      eapply (LoadsChronicle_extend CheckVault); eauto;
        destruct ok; cbn; rewrite ?app_nil_r; try reflexivity;
        repeat first [ apply Forall_nil_2 | apply Forall_cons_2; [reflexivity|] ].
    + destruct (reconcile configuration w0 ok ls) as [[ls' es']|] eqn:Hrec;
        [|discriminate].
      intros [= Hj].
      rewrite (surjective_pairing (joinLoads _ _ _ _ _)) in Hj.
      injection Hj as <- <-. apply joinLoads_Chronicle; [done|].
      apply reconcile_reconciledSoFar in Hrec as [Hrec Hes].
      * eapply (LoadsChronicle_extend LoadSettings); eauto.
        -- by rewrite (part_writer_other LoadSettings), app_nil_r.
        -- by rewrite part_writer_own.
        -- by rewrite (part_writer_other LoadSettings), app_nil_r.
        -- by rewrite (part_writer_other LoadSettings), app_nil_r.
      * intros ->. by destruct cv.
    + destruct im; try discriminate. intros [= Hj].
      rewrite (surjective_pairing (joinLoads _ _ _ _ _)) in Hj.
      injection Hj as <- <-. apply joinLoads_Chronicle; [done|].
      eapply (LoadsChronicle_extend LoadImages); eauto;
        destruct ok; cbn; rewrite ?app_nil_r; try reflexivity;
        repeat first [ apply Forall_nil_2 | apply Forall_cons_2; [reflexivity|] ].
    + destruct fo; try discriminate. intros [= Hj].
      rewrite (surjective_pairing (joinLoads _ _ _ _ _)) in Hj.
      injection Hj as <- <-. apply joinLoads_Chronicle; [done|].
      eapply (LoadsChronicle_extend LoadFonts); eauto;
        destruct ok; cbn; rewrite ?app_nil_r; try reflexivity;
        repeat first [ apply Forall_nil_2 | apply Forall_cons_2; [reflexivity|] ].
  - (* the splash screen is being hidden *)
    intros _ (hb & hl & -> & Hb & Hl).
    destruct path; [|discriminate]. destruct hide; try discriminate.
    intros [= <- <-].
    exists hb, hl. split; [|done].
    rewrite <- !app_assoc. cbn. by destruct ok.
Qed.

End ChronicleSteps.

(** ** Every launch is suspended at a control point *)

Lemma run_atPhase (configuration : Configuration) (w0 : World)
      (es : list Event) (ph : Phase) (h : list Entry) :
  wellPlaced configuration w0 ph →
  Chronicle configuration w0 ph h →
  ∃ ph' h',
    run es (atPhase configuration w0 ph h) =
      atPhase configuration w0 ph' (h ++ h') ∧
    wellPlaced configuration w0 ph' ∧
    Chronicle configuration w0 ph' (h ++ h').
Proof.
  revert ph h. induction es as [|e es IH]; intros ph h Hwp Hch.
  - exists ph, []. rewrite app_nil_r. done.
  - cbn. rewrite step_atPhase by done.
    destruct (advance configuration w0 e ph) as [[ph1 es1]|] eqn:Hadv.
    + destruct (IH ph1 (h ++ es1)) as (ph' & h' & Hrun & Hwp' & Hch').
      * by eapply advance_wellPlaced.
      * by eapply advance_Chronicle.
      * exists ph', (es1 ++ h'). rewrite app_assoc. done.
    + by apply IH.
Qed.

Lemma launch_atPhase (configuration : Configuration) (w0 : World)
      (es : list Event) :
  ∃ ph h,
    launch configuration w0 es = atPhase configuration w0 ph h ∧
    wellPlaced configuration w0 ph ∧
    Chronicle configuration w0 ph h.
Proof.
  unfold launch. rewrite mount_atPhase.
  destruct (run_atPhase configuration w0 es (Splashing InFlight)
                        [Called PreventAutoHideAsync])
    as (ph & h & Hrun & Hwp & Hch); [done..|].
  eauto.
Qed.

Lemma launch_app (configuration : Configuration) (w0 : World)
      (es es' : list Event) :
  launch configuration w0 (es ++ es') = run es' (launch configuration w0 es).
Proof. unfold launch, run. by rewrite foldl_app. Qed.

(** A launch that goes on keeps its history and adds to it. *)
Lemma launch_extends (configuration : Configuration) (w0 : World)
      (es es' : list Event) :
  ∃ h', history (state (launch configuration w0 (es ++ es'))) =
        history (state (launch configuration w0 es)) ++ h'.
Proof.
  rewrite launch_app.
  destruct (launch_atPhase configuration w0 es) as (ph & h & -> & Hwp & Hch).
  destruct (run_atPhase configuration w0 es' ph h Hwp Hch)
    as (ph' & h' & -> & _ & _).
  by exists h'.
Qed.

(** ** Histories are interleavings *)

Lemma loads_Permutation (hl : list Entry) :
  Forall (λ e, is_Some (writer e)) hl →
  hl ≡ₚ part writer CheckVault hl ++ part writer LoadSettings hl ++
        part writer LoadImages hl ++ part writer LoadFonts hl.
Proof.
  induction 1 as [|e hl [l Hl] _ IH]; [done|].
  cbn. rewrite Hl. fold (part writer CheckVault hl) (part writer LoadSettings hl)
    (part writer LoadImages hl) (part writer LoadFonts hl).
  destruct l; repeat case_bool_decide; try done; cbn.
  - by constructor.
  - rewrite <- Permutation_middle. by constructor.
  - rewrite (app_assoc (part writer CheckVault hl)), <- Permutation_middle,
      <- app_assoc. by constructor.
  - rewrite !app_assoc, <- Permutation_middle, <- !app_assoc. by constructor.
Qed.

Lemma reset_Permutation (hr : list Entry) :
  Forall (λ e, ∃ c r, e = Returned c r ∧
                      c ∈ [DeleteVault; RemovePassword; StorageClear]) hr →
  hr ≡ₚ part operation DeleteVault hr ++ part operation RemovePassword hr ++
        part operation StorageClear hr.
Proof.
  induction 1 as [|e hr (c & r & -> & Hc) _ IH]; [done|].
  cbn. fold (part operation DeleteVault hr) (part operation RemovePassword hr)
    (part operation StorageClear hr).
  rewrite !elem_of_cons, elem_of_nil in Hc.
  destruct Hc as [->|[->|[->|[]]]]; repeat case_bool_decide; try done; cbn.
  - by constructor.
  - rewrite <- Permutation_middle. by constructor.
  - rewrite !app_assoc, <- Permutation_middle, <- !app_assoc. by constructor.
Qed.

Lemma Chronicle_inOrder (configuration : Configuration) (w0 : World)
      (ph : Phase) (h : list Entry) :
  Chronicle configuration w0 ph h → h ≡ₚ inOrder configuration w0 ph.
Proof.
  assert (Hboot : ∀ hb, Booted configuration hb →
            hb ≡ₚ splashHeld ++
                  (if shouldReset configuration then
                     resetCalled ++ outcome DeleteVault Kept ++
                     outcome RemovePassword Kept ++ outcome StorageClear Kept
                   else [])).
  { intros hb. unfold Booted. destruct (shouldReset configuration).
    - intros (hr & -> & HF & Hdv & Hrp & Hsc).
      rewrite (reset_Permutation hr HF) at 1. by rewrite Hdv, Hrp, Hsc.
    - intros ->. by rewrite app_nil_r. }
  destruct ph as [prevent|dv rp sc|cv ls im fo|hide]; cbn [Chronicle inOrder].
  - by intros [-> _].
  - intros (hr & -> & HF & Hdv & Hrp & Hsc).
    rewrite (reset_Permutation hr HF) at 1. by rewrite Hdv, Hrp, Hsc.
  - intros (hb & hl & -> & Hb & HF & Hcv & Hls & Him & Hfo).
    rewrite (loads_Permutation hl HF) at 1.
    rewrite Hcv, Hls, Him, Hfo, (Hboot hb Hb). by rewrite <- !app_assoc.
  - intros (hb & hl & -> & Hb & HF & Hcv & Hls & Him & Hfo).
    rewrite (loads_Permutation hl HF) at 1.
    rewrite Hcv, Hls, Him, Hfo, (Hboot hb Hb). by rewrite <- !app_assoc.
Qed.

(** ** What a launch looks like *)

(** The facts about a launch that the control points give. *)
Lemma launch_inOrder (configuration : Configuration) (w0 : World)
      (es : list Event) :
  ∃ ph,
    wellPlaced configuration w0 ph ∧
    Chronicle configuration w0 ph (history (state (launch configuration w0 es))) ∧
    history (state (launch configuration w0 es)) ≡ₚ inOrder configuration w0 ph ∧
    main (launch configuration w0 es) = mainAt configuration w0 ph ∧
    world (state (launch configuration w0 es)) = worldAt configuration w0 ph ∧
    vaultExists (state (launch configuration w0 es)) = vaultExistsAt configuration w0 ph ∧
    initialSettings (state (launch configuration w0 es)) =
      initialSettingsAt configuration w0 ph ∧
    isReady (state (launch configuration w0 es)) = isReadyAt ph.
Proof.
  destruct (launch_atPhase configuration w0 es) as (ph & h & -> & Hwp & Hch).
  exists ph. split_and!; try done. by apply Chronicle_inOrder.
Qed.

(** Membership in a list that is written out. *)
Ltac listed :=
  repeat first [ apply list_elem_of_here | apply list_elem_of_further ].

(** Case analysis on a membership in a history that is written out. *)
Ltac sift H :=
  repeat match type of H with
  | _ ∈ _ ++ _ => apply elem_of_app in H as [H|H]
  | _ ∈ _ :: _ => apply elem_of_cons in H as [H|H]; [try discriminate H|]
  | _ ∈ [] => by apply elem_of_nil in H
  | _ ∈ (if ?b then _ else _) => destruct b eqn:?
  | _ ∈ outcome _ ?p => try (is_var p; destruct p); cbn [outcome] in H
  | _ ∈ checkedSoFar _ _ ?p =>
      try (is_var p; destruct p); cbn [checkedSoFar checked] in H
  | _ ∈ reconciledSoFar _ _ ?ls =>
      try (is_var ls; destruct ls); cbn [reconciledSoFar] in H
  | _ ∈ match ?c with _ => _ end => is_var c; destruct c
  | _ ∈ splashHeld => unfold splashHeld in H
  | _ ∈ resetCalled => unfold resetCalled in H
  | _ ∈ loadsCalled => unfold loadsCalled in H
  | _ ∈ queried _ => unfold queried in H
  | _ ∈ removed _ => unfold removed in H
  end.

Lemma elem_of_inOrder_SetReady (configuration : Configuration) (w0 : World)
      (ph : Phase) (b : bool) :
  Did (SetReady b) ∈ inOrder configuration w0 ph → b = true ∧ isReadyAt ph = true.
Proof.
  intros Hin. destruct ph; cbn [inOrder] in Hin; sift Hin; by simplify_eq.
Qed.

Lemma isReady_SetReady (configuration : Configuration) (w0 : World)
      (es : list Event) :
  isReady (state (launch configuration w0 es)) = true ↔
  Did (SetReady true) ∈ history (state (launch configuration w0 es)).
Proof.
  destruct (launch_inOrder configuration w0 es)
    as (ph & _ & _ & Hh & _ & _ & _ & _ & ->).
  rewrite Hh. split.
  - destruct ph; try discriminate. intros _. cbn [inOrder].
    rewrite !elem_of_app. do 6 right. left. apply list_elem_of_here.
  - by intros [_ ?]%elem_of_inOrder_SetReady.
Qed.

Lemma occurrences_app (e : Entry) (h1 h2 : list Entry) :
  occurrences e (h1 ++ h2) = occurrences e h1 + occurrences e h2.
Proof. unfold occurrences. by rewrite List.filter_app, length_app. Qed.

Lemma occurrences_absent (e : Entry) (h : list Entry) :
  e ∉ h → occurrences e h = 0.
Proof.
  unfold occurrences. induction h as [|x h IH]; [done|].
  rewrite not_elem_of_cons. intros [Hne Hh]. cbn.
  rewrite bool_decide_false by done. by apply IH.
Qed.

Lemma occurrences_Permutation (e : Entry) (h1 h2 : list Entry) :
  h1 ≡ₚ h2 → occurrences e h1 = occurrences e h2.
Proof.
  unfold occurrences. induction 1 as [|x l1 l2 _ IH|x y l|l1 l2 l3 _ IH1 _ IH2]; cbn.
  - done.
  - case_bool_decide; cbn; by rewrite IH.
  - repeat case_bool_decide; done.
  - by rewrite IH1.
Qed.

(** ** Completion, failure and readiness *)

Lemma LoadsChronicle_inOrder (configuration : Configuration) (w0 : World)
      (cv : Promise) (ls : Reconciling) (im fo : Promise) (hl : list Entry) :
  LoadsChronicle configuration w0 cv ls im fo hl →
  hl ≡ₚ checkedSoFar configuration w0 cv ++ reconciledSoFar configuration w0 ls ++
        outcome images im ++ outcome fonts fo.
Proof.
  intros (HF & Hcv & Hls & Him & Hfo).
  rewrite (loads_Permutation hl HF) at 1. by rewrite Hcv, Hls, Him, Hfo.
Qed.

(** When [isReady] is true the history splits at the call of [setReady],
    and each of the four loads has completed before it. *)
Lemma ready_after_loads (configuration : Configuration) (w0 : World)
      (es : list Event) :
  isReady (state (launch configuration w0 es)) = true →
  ∃ h1 h2,
    history (state (launch configuration w0 es)) =
      h1 ++ Did (SetReady true) :: h2 ∧
    ∀ ld, completed ld h1.
Proof.
  destruct (launch_inOrder configuration w0 es)
    as (ph & _ & Hch & _ & _ & _ & _ & _ & ->).
  destruct ph as [| | |hide]; try discriminate. intros _.
  destruct Hch as (hb & hl & -> & _ & Hl).
  apply LoadsChronicle_inOrder in Hl.
  exists (hb ++ loadsCalled ++ hl), (Called HideAsync :: outcome HideAsync hide).
  split; [by rewrite <- !app_assoc|].
  intros ld. destruct ld; cbn [completed]; eexists; rewrite !elem_of_app;
    do 2 right; rewrite Hl; cbn; rewrite <- ?app_assoc;
    repeat first [ apply list_elem_of_here | apply list_elem_of_further
                 | apply elem_of_app; right ].
Qed.

(** A rejected operation of a load is in no history of a ready launch. *)
Lemma failed_not_ready (configuration : Configuration) (w0 : World)
      (es : list Event) (ld : Load) :
  failed ld (history (state (launch configuration w0 es))) →
  isReady (state (launch configuration w0 es)) = false ∧
  splash (world (state (launch configuration w0 es))) ≠ SplashHidden ∧
  Called HideAsync ∉ history (state (launch configuration w0 es)).
Proof.
  destruct (launch_inOrder configuration w0 es)
    as (ph & _ & _ & Hh & _ & -> & _ & _ & ->).
  intros (c & Hc & Hin). rewrite Hh in Hin |- *.
  destruct ph as [prevent|dv rp sc|cv ls im fo|hide]; cbn [inOrder] in Hin |- *.
  - split_and!; [done|sift Hin; by simplify_eq|intros Hhide; sift Hhide].
  - split_and!; [done|done|intros Hhide; sift Hhide].
  - split_and!; [done|done|intros Hhide; sift Hhide].
  - sift Hin; by simplify_eq.
Qed.

Lemma failed_extends (configuration : Configuration) (w0 : World)
      (es es' : list Event) (ld : Load) :
  failed ld (history (state (launch configuration w0 es))) →
  failed ld (history (state (launch configuration w0 (es ++ es')))).
Proof.
  intros (c & Hc & Hin). exists c. split; [done|].
  destruct (launch_extends configuration w0 es es') as [h' ->].
  apply elem_of_app. by left.
Qed.

(** ** Where an entry sits in a history *)

Lemma split_after_prefix (x : Entry) (a b h1 h2 : list Entry) :
  x ∉ a → a ++ b = h1 ++ x :: h2 →
  ∃ h1', h1 = a ++ h1' ∧ b = h1' ++ x :: h2.
Proof.
  revert h1. induction a as [|y a IH]; intros h1 Hx Heq.
  - by exists h1.
  - apply not_elem_of_cons in Hx as [Hxy Hx].
    destruct h1 as [|z h1]; simplify_eq/=.
    destruct (IH h1 Hx) as (h1' & -> & ->); [done|]. by exists h1'.
Qed.

Lemma split_before_suffix (x : Entry) (l t h1 h2 : list Entry) :
  x ∉ t → l ++ t = h1 ++ x :: h2 →
  ∃ h2', h2 = h2' ++ t ∧ l = h1 ++ x :: h2'.
Proof.
  revert l. induction h1 as [|z h1 IH]; intros l Hx Heq.
  - destruct l as [|y l]; simplify_eq/=.
    + destruct Hx. apply list_elem_of_here.
    + by exists l.
  - destruct l as [|y l]; simplify_eq/=.
    + destruct Hx. apply list_elem_of_further, elem_of_app. right.
      apply list_elem_of_here.
    + destruct (IH l Hx) as (h2' & -> & ->); [done|]. by exists h2'.
Qed.

Lemma split_unique (x : Entry) (l1 l2 h1 h2 : list Entry) :
  x ∉ l1 → x ∉ l2 → l1 ++ x :: l2 = h1 ++ x :: h2 → h1 = l1 ∧ h2 = l2.
Proof.
  intros Hl1 Hl2 Heq.
  destruct (split_after_prefix x l1 (x :: l2) h1 h2 Hl1 Heq) as (h1' & -> & Heq').
  destruct h1' as [|y h1']; simplify_eq/=.
  - by rewrite app_nil_r.
  - destruct Hl2. apply elem_of_app. right. apply list_elem_of_here.
Qed.

(** An entry that a promise wrote once sits in the history after all that
    the promise wrote before it. *)
Lemma part_before {K : Type} `{EqDecision K} (key : Entry → option K) (k : K)
      (x : Entry) (pre post h h1 h2 : list Entry) :
  key x = Some k →
  part key k h = pre ++ x :: post →
  x ∉ pre → x ∉ post →
  h = h1 ++ x :: h2 →
  part key k h1 = pre.
Proof.
  intros Hk Hpart Hpre Hpost Hh.
  destruct (part_split key k h pre post x Hpart) as (ha & hc & Hsplit & <- & <-).
  rewrite Hsplit in Hh.
  destruct (split_unique x ha hc h1 h2) as [-> _]; try done.
  - intros Hin. apply Hpre, elem_of_part. done.
  - intros Hin. apply Hpost, elem_of_part. done.
Qed.

(** ** The history before the loads *)

Lemma Booted_inOrder (configuration : Configuration) (hb : list Entry) :
  Booted configuration hb →
  hb ≡ₚ splashHeld ++
        (if shouldReset configuration then
           resetCalled ++ outcome DeleteVault Kept ++
           outcome RemovePassword Kept ++ outcome StorageClear Kept
         else []).
Proof.
  unfold Booted. destruct (shouldReset configuration).
  - intros (hr & -> & HF & Hdv & Hrp & Hsc).
    rewrite (reset_Permutation hr HF) at 1. by rewrite Hdv, Hrp, Hsc.
  - intros ->. by rewrite app_nil_r.
Qed.

(** A launch whose history has an entry of one of the loads has called its
    loads; entries about [removePassword] may also come from a reset. *)
Lemma launch_loading (configuration : Configuration) (w0 : World)
      (es : list Event) (e : Entry) :
  e ∈ history (state (launch configuration w0 es)) →
  is_Some (writer e) →
  (operation e = Some RemovePassword → shouldReset configuration = false) →
  ∃ ls hb hl tl,
    LoadsStarted configuration w0 (launch configuration w0 es) ls hb hl tl.
Proof.
  unfold LoadsStarted.
  destruct (launch_inOrder configuration w0 es)
    as (ph & Hwp & Hch & Hh & _ & -> & -> & -> & _).
  rewrite Hh. intros Hin [l Hl] Hsr.
  destruct ph as [prevent|dv rp sc|cv ls im fo|hide]; cbn [inOrder] in Hin.
  - sift Hin; by simplify_eq.
  - cbn [wellPlaced] in Hwp.
    sift Hin; simplify_eq; try done; specialize (Hsr eq_refl); congruence.
  - destruct Hch as (hb & hl & -> & Hb & Hl').
    exists ls, hb, hl, [], cv, im, fo. rewrite app_nil_r. split_and!; try done.
    + intros x Hx. by apply elem_of_nil in Hx.
    + cbn [wellPlaced] in Hwp. intros [->| ->]; by destruct cv.
    + by destruct ls.
    + by destruct cv.
  - destruct Hch as (hb & hl & -> & Hb & Hl').
    exists LsEmitted, hb, hl,
      ([Did (SetReady true); Called HideAsync] ++ outcome HideAsync hide),
      Kept, Kept, Kept.
    split_and!; try done.
    + intros x Hx. sift Hx; by simplify_eq.
    + by intros [|].
Qed.

(** ** What [loadSettings] wrote *)

(** An entry of [loadSettings] other than the call of the enrollment query
    is in the history because [loadSettings] wrote it after the loads were
    called. *)
Lemma LoadsStarted_reconciling (configuration : Configuration) (w0 : World)
      (l : Launch) (ls : Reconciling) (hb hl tl : list Entry) (e : Entry) :
  LoadsStarted configuration w0 l ls hb hl tl →
  e ∈ history (state l) →
  writer e = Some LoadSettings →
  (operation e = Some RemovePassword → shouldReset configuration = false) →
  e ≠ Called IsEnrolledAsync →
  (e ∉ hb ++ loadsCalled) ∧ (e ∉ tl) ∧ e ∈ reconciledSoFar configuration w0 ls.
Proof.
  intros (cv & im & fo & Hh & Hb & Hl & Htl & _) Hin Hw Hsr Hne.
  assert (Hhb : e ∉ hb ++ loadsCalled).
  { rewrite (Booted_inOrder configuration hb Hb). intros Hhb.
    sift Hhb; simplify_eq; try done; specialize (Hsr eq_refl); congruence. }
  assert (Htl' : e ∉ tl).
  { intros Hx. apply Htl in Hx. congruence. }
  split_and!; try done.
  rewrite Hh, app_assoc, elem_of_app in Hin.
  destruct Hin as [Hin|Hin]; [done|].
  apply elem_of_app in Hin as [Hin|Hin]; [|done].
  destruct Hl as (_ & _ & <- & _). apply elem_of_part. by split.
Qed.

(** What [loadSettings] wrote before an entry it wrote once has been
    written before that entry. *)
Lemma LoadsStarted_before (configuration : Configuration) (w0 : World)
      (l : Launch) (ls : Reconciling) (hb hl tl : list Entry)
      (x : Entry) (pre post h1 h2 : list Entry) :
  LoadsStarted configuration w0 l ls hb hl tl →
  writer x = Some LoadSettings →
  (operation x = Some RemovePassword → shouldReset configuration = false) →
  x ≠ Called IsEnrolledAsync →
  reconciledSoFar configuration w0 ls = pre ++ x :: post →
  x ∉ pre → x ∉ post →
  history (state l) = h1 ++ x :: h2 →
  ∃ h1', h1 = hb ++ loadsCalled ++ h1' ∧ part writer LoadSettings h1' = pre.
Proof.
  intros Hstarted Hw Hsr Hne Hrec Hpre Hpost Hsplit.
  destruct (LoadsStarted_reconciling _ _ _ _ _ _ _ x Hstarted)
    as (Hhb & Htl & _); try done.
  { rewrite Hsplit. apply elem_of_app. right. apply list_elem_of_here. }
  destruct Hstarted as (cv & im & fo & Hh & _ & (_ & _ & Hls & _) & _).
  rewrite Hsplit, app_assoc in Hh. symmetry in Hh.
  apply split_after_prefix in Hh as (h1' & -> & Hh); [|done].
  apply split_before_suffix in Hh as (h2' & -> & Hhl); [|done].
  exists h1'. split; [by rewrite <- app_assoc|].
  apply (part_before writer LoadSettings x pre post hl h1' h2'); try done.
  by rewrite Hls.
Qed.

(** On a device without enrolled biometrics, [loadSettings] has asked,
    called [removePassword] and seen it succeed when it calls
    [getPassword], and calls it once. *)
Lemma reconciledSoFar_read (configuration : Configuration) (w0 : World)
      (ls : Reconciling) :
  enrolled w0 = false →
  Called GetPassword ∈ reconciledSoFar configuration w0 ls →
  reconciled ls = true ∧
  ∃ post,
    reconciledSoFar configuration w0 ls =
      [Returned IsEnrolledAsync (Resolved (JsBoolean false));
       Called RemovePassword;
       Returned RemovePassword (Resolved JsUndefined)] ++
      Called GetPassword :: post ∧
    Called GetPassword ∉ post.
Proof.
  destruct w0 as [v p m en s]. cbn [enrolled]. intros -> Hin.
  destruct ls as [| | | | |c]; try destruct c;
    cbn in Hin |- *;
    try (exfalso; sift Hin; done);
    (split; [done|]); eexists; (split; [reflexivity|]);
    intros Hpost; sift Hpost.
Qed.

(** [loadSettings] calls [removePassword] once, after the enrollment query
    has answered [false]. *)
Lemma reconciledSoFar_remove (configuration : Configuration) (w0 : World)
      (ls : Reconciling) :
  (ls = LsRemove ∨ ls = LsBroken RemovePassword → enrolled w0 = false) →
  Called RemovePassword ∈ reconciledSoFar configuration w0 ls →
  enrolled w0 = false ∧
  ∃ post,
    reconciledSoFar configuration w0 ls =
      [Returned IsEnrolledAsync (Resolved (JsBoolean false))] ++
      Called RemovePassword :: post ∧
    Called RemovePassword ∉ post.
Proof.
  destruct w0 as [v p m [] s]; cbn [enrolled]; intros Hwp Hin.
  - exfalso.
    destruct ls as [| | | | |c]; try destruct c;
      try (by (discriminate Hwp; auto));
      cbn in Hin; sift Hin.
  - split; [done|].
    destruct ls as [| | | | |c]; try destruct c;
      cbn in Hin |- *;
      try (exfalso; sift Hin; done);
      eexists; (split; [reflexivity|]);
      intros Hpost; sift Hpost.
Qed.

(** Once the enrollment query has answered [false], [loadSettings] has
    called [removePassword]. *)
Lemma reconciledSoFar_queried (configuration : Configuration) (w0 : World)
      (ls : Reconciling) :
  Returned IsEnrolledAsync (Resolved (JsBoolean false))
    ∈ reconciledSoFar configuration w0 ls →
  Called RemovePassword ∈ reconciledSoFar configuration w0 ls.
Proof.
  destruct w0 as [v p m [] s]; intros Hin.
  - exfalso. sift Hin; by simplify_eq.
  - destruct ls as [| | | | |c]; try destruct c; cbn in Hin |- *;
      try (exfalso; sift Hin; done); listed.
Qed.

(** On a device without enrolled biometrics [loadSettings] is only past
    its [if] after calling [removePassword]. *)
Lemma reconciled_removed (configuration : Configuration) (w0 : World)
      (ls : Reconciling) :
  enrolled w0 = false →
  reconciled ls = true →
  Called RemovePassword ∈ reconciledSoFar configuration w0 ls.
Proof.
  destruct w0 as [v p m en s]. cbn [enrolled]. intros ->.
  destruct ls as [| | | | |c]; try destruct c; try discriminate; intros _; cbn;
    repeat first [ apply list_elem_of_here | apply list_elem_of_further ].
Qed.

(** * The claims *)

(** ** The scenarios of the specification *)

(** A returning user: no reset, a vault, biometrics enrolled, a credential
    and the conceal-tokens preference stored.  The snapshot has both fields
    true and the initial route is [Authentication]. *)
Example scenario_returning_user :
  initialSettings (state (launch (mkConfiguration false) (device true)
                                 allSucceed)) = Some (mkSettings true true) ∧
  (λ el, initialRouteName (children el (mkGlobalState JsNull)))
    <$> App (state (launch (mkConfiguration false) (device true) allSucceed))
  = Some Authentication.
Proof. vm_compute. split; reflexivity. Qed.

(** A stale credential: no reset, no vault, biometrics no longer enrolled,
    a credential still stored.  The credential is deleted, the snapshot has
    [biometricUnlock] false, the conceal-tokens preference is read as it
    is, and the initial route is [Welcome]. *)
Example scenario_stale_credential :
  password (world (state (launch (mkConfiguration false) deviceAfterUnenrolling
                                 allSucceed))) = None ∧
  initialSettings (state (launch (mkConfiguration false) deviceAfterUnenrolling
                                 allSucceed)) = Some (mkSettings false true) ∧
  (λ el, initialRouteName (children el (mkGlobalState JsNull)))
    <$> App (state (launch (mkConfiguration false) deviceAfterUnenrolling
                           allSucceed))
  = Some Welcome.
Proof. vm_compute. split_and!; reflexivity. Qed.

(** The image preload fails: [isReady] stays false, [App] renders [null]
    and the splash screen stays, whatever settles afterwards. *)
Example scenario_images_fail :
  isReady (state (launch (mkConfiguration false) (device true)
                         (imagesFail ++ allSucceed))) = false ∧
  App (state (launch (mkConfiguration false) (device true)
                     (imagesFail ++ allSucceed))) = None ∧
  splash (world (state (launch (mkConfiguration false) (device true)
                               (imagesFail ++ allSucceed)))) = SplashHeld.
Proof. vm_compute. split_and!; reflexivity. Qed.

(** ** The claims, one by one *)

(** C1: when the enrollment query returns false the reconciler deletes the
    stored credential before it reads it.  In a launch whose history has
    the query answered [false]: [removePassword] has been called after the
    answer; wherever [getPassword] is called, a [removePassword] has
    succeeded before the call and after the answer; the credential is
    absent from the call on; and a snapshot that has been emitted has
    [biometricUnlock] false.  Conversely a snapshot with [biometricUnlock]
    true is only emitted in a launch whose query answered [true]. *)
Theorem reconciler_forgets_credential (configuration : Configuration)
        (w : World) (es : list Event) :
  let l := launch configuration w es in
  (Returned IsEnrolledAsync (Resolved (JsBoolean false)) ∈ history (state l) →
   (∃ ha hb,
      history (state l) = ha ++ Called RemovePassword :: hb ∧
      Returned IsEnrolledAsync (Resolved (JsBoolean false)) ∈ ha) ∧
   (∀ h1 h2,
      history (state l) = h1 ++ Called GetPassword :: h2 →
      ∃ ha hb,
        h1 = ha ++ Returned RemovePassword (Resolved JsUndefined) :: hb ∧
        Returned IsEnrolledAsync (Resolved (JsBoolean false)) ∈ ha) ∧
   (Called GetPassword ∈ history (state l) →
    password (world (state l)) = None) ∧
   (∀ s, initialSettings (state l) = Some s →
         password (world (state l)) = None ∧ biometricUnlock s = false)) ∧
  (∀ s, initialSettings (state l) = Some s →
        biometricUnlock s = true →
        Returned IsEnrolledAsync (Resolved (JsBoolean true)) ∈ history (state l)).
Proof.
  intros l. subst l. split.
  - intros Hq.
    destruct (launch_loading configuration w es _ Hq) as
      (ls & hb & hl & tl & Hstarted); [by eexists|done|].
    destruct (LoadsStarted_reconciling _ _ _ _ _ _ _ _ Hstarted Hq)
      as (_ & _ & Hqin); [done..|].
    assert (Hen : enrolled w = false).
    { clear -Hqin. sift Hqin; by simplify_eq. }
    assert (Hread : Called GetPassword
                      ∈ history (state (launch configuration w es)) →
              reconciled ls = true ∧
              ∃ post,
                reconciledSoFar configuration w ls =
                  [Returned IsEnrolledAsync (Resolved (JsBoolean false));
                   Called RemovePassword;
                   Returned RemovePassword (Resolved JsUndefined)] ++
                  Called GetPassword :: post ∧
                Called GetPassword ∉ post).
    { intros Hg.
      destruct (LoadsStarted_reconciling _ _ _ _ _ _ _ _ Hstarted Hg)
        as (_ & _ & Hgin); [done..|].
      by apply reconciledSoFar_read. }
    assert (Hpw : reconciled ls = true →
              password (world (state (launch configuration w es))) = None).
    { intros Hrec. destruct Hstarted as (? & ? & ? & _ & _ & _ & _ & _ & -> & _).
      cbn. rewrite Hrec. unfold passwordReconciled. by rewrite Hen. }
    split_and!.
    + pose proof Hstarted as (? & ? & ? & Hh & _ & (_ & _ & Hls & _) & _ & Hwp & _).
      destruct (reconciledSoFar_remove configuration w ls Hwp)
        as (_ & post & Hrec & _).
      { by apply reconciledSoFar_queried. }
      rewrite <- Hls in Hrec.
      destruct (part_split writer LoadSettings hl _ _ _ Hrec)
        as (ha1 & ha2 & -> & Hha1 & _).
      exists (hb ++ loadsCalled ++ ha1), (ha2 ++ tl). split.
      * rewrite Hh. by rewrite <- !app_assoc.
      * rewrite !elem_of_app. do 2 right.
        apply (elem_of_part writer LoadSettings). rewrite Hha1.
        apply list_elem_of_here.
    + intros h1 h2 Hsplit.
      destruct Hread as (_ & post & Hrec & Hpost).
      { rewrite Hsplit. apply elem_of_app. right. apply list_elem_of_here. }
      destruct (LoadsStarted_before configuration w _ ls hb hl tl
                  (Called GetPassword)
                  [Returned IsEnrolledAsync (Resolved (JsBoolean false));
                   Called RemovePassword;
                   Returned RemovePassword (Resolved JsUndefined)]
                  post h1 h2 Hstarted)
        as (h1' & -> & Hpart); try done.
      { intros Hin. sift Hin. }
      destruct (part_split writer LoadSettings h1'
                  [Returned IsEnrolledAsync (Resolved (JsBoolean false));
                   Called RemovePassword] []
                  (Returned RemovePassword (Resolved JsUndefined)) Hpart)
        as (ha1 & ha2 & -> & Hha1 & _).
      exists (hb ++ loadsCalled ++ ha1), ha2. split.
      * by rewrite <- !app_assoc.
      * rewrite !elem_of_app. do 2 right.
        apply (elem_of_part writer LoadSettings). rewrite Hha1.
        apply list_elem_of_here.
    + intros Hg. apply Hpw. by apply Hread.
    + intros s Hs.
      destruct Hstarted as (? & ? & ? & _ & _ & _ & _ & _ & Hworld & Hset & _).
      rewrite Hset in Hs. destruct ls; try discriminate Hs.
      injection Hs as <-. split.
      * rewrite Hworld. cbn. unfold passwordReconciled. by rewrite Hen.
      * cbn. unfold passwordRead, passwordReconciled. by rewrite Hen.
  - intros s Hs Hbu.
    destruct (launch_inOrder configuration w es)
      as (ph & _ & _ & Hh & _ & _ & _ & Hset & _).
    rewrite Hset in Hs. rewrite Hh.
    assert (Hen : enrolled w = true).
    { destruct (enrolled w) eqn:Hen; [done|].
      destruct ph as [| |? [] ? ?|]; try discriminate Hs;
        injection Hs as <-; cbn in Hbu;
        unfold passwordRead, passwordReconciled in Hbu;
        by rewrite Hen in Hbu. }
    destruct ph as [| |? [] ? ?|]; try discriminate Hs;
      cbn [inOrder reconciledSoFar]; unfold queried;
      rewrite Hen, !elem_of_app; do 3 right; do 2 left;
      apply list_elem_of_here.
Qed.

Lemma reconciler_forgets_credential_witness :
  (password (world (state (launch (mkConfiguration false) (device false)
                                  allSucceed))) = None ∧
   biometricUnlock (mkSettings false true) = false) ∧
  Returned IsEnrolledAsync (Resolved (JsBoolean true))
    ∈ history (state (launch (mkConfiguration false) (device true) allSucceed)).
Proof.
  split.
  - apply (proj1 (reconciler_forgets_credential (mkConfiguration false)
                    (device false) allSucceed)).
    + vm_compute. listed.
    + vm_compute. reflexivity.
  - apply (proj2 (reconciler_forgets_credential (mkConfiguration false)
                    (device true) allSucceed) (mkSettings true true)).
    + vm_compute. reflexivity.
    + reflexivity.
Defined.

(** C2: with a reset directed, the handler issues exactly three operations,
    the vault deletion, the credential removal and the preference-store
    clear, and a launch that completes its bootstrap has the three stores
    empty whatever they held.  Once the splash screen is held, the history
    goes on with the three calls, then with nothing but the settlements of
    these three, until the four loads are called; and when [isReady] is
    true the vault, the credential and the conceal-tokens preference are
    absent. *)
Theorem reset_wipes_the_stores (configuration : Configuration) (w : World)
        (es : list Event) :
  shouldReset configuration = true →
  (Returned PreventAutoHideAsync (Resolved JsUndefined)
     ∈ history (state (launch configuration w es)) →
   ∃ hr rest,
     history (state (launch configuration w es)) =
       splashHeld ++
       [Called DeleteVault; Called RemovePassword; Called StorageClear] ++
       hr ++ rest ∧
     Forall (λ e, ∃ c r, e = Returned c r ∧
                         c ∈ [DeleteVault; RemovePassword; StorageClear]) hr ∧
     (rest = [] ∨ ∃ hl, rest = loadsCalled ++ hl)) ∧
  (isReady (state (launch configuration w es)) = true →
   vaultStored (world (state (launch configuration w es))) = false ∧
   password (world (state (launch configuration w es))) = None ∧
   preferences (world (state (launch configuration w es))) = ∅ ∧
   preferences (world (state (launch configuration w es))) !! concealTokensKey
     = None).
Proof.
  intros Hsr.
  destruct (launch_inOrder configuration w es)
    as (ph & _ & Hch & _ & _ & -> & _ & _ & ->).
  assert (Hb : ∀ hb, Booted configuration hb →
                 ∃ hr, hb = splashHeld ++ resetCalled ++ hr ∧
                       Forall (λ e, ∃ c r, e = Returned c r ∧
                                 c ∈ [DeleteVault; RemovePassword; StorageClear])
                              hr).
  { intros hb. unfold Booted. rewrite Hsr.
    intros (hr & -> & HF & _). by exists hr. }
  split.
  - intros Hheld.
    destruct ph as [prevent|dv rp sc|cv ls im fo|hide]; cbn [Chronicle] in Hch.
    + destruct Hch as [Hh Hprevent]. rewrite Hh in Hheld.
      sift Hheld; by simplify_eq.
    + destruct Hch as (hr & -> & HF & _).
      exists hr, []. rewrite app_nil_r. split_and!; [done|done|by left].
    + destruct Hch as (hb & hl & -> & (hr & -> & HF)%Hb & _).
      exists hr, (loadsCalled ++ hl). split_and!; [|done|by eauto].
      by rewrite <- !app_assoc.
    + destruct Hch as (hb & hl & -> & (hr & -> & HF)%Hb & _).
      exists hr, (loadsCalled ++ hl ++ [Did (SetReady true); Called HideAsync] ++
                  outcome HideAsync hide).
      split_and!; [|done|by eauto].
      by rewrite <- !app_assoc.
  - destruct ph; try discriminate. intros _. cbn.
    unfold vaultAtLoads, passwordReconciled, passwordAtLoads, preferencesAtLoads.
    rewrite Hsr. split_and!; try done. by destruct (enrolled w).
Qed.

Lemma reset_wipes_the_stores_witness :
  (∃ hr rest,
     history (state (launch (mkConfiguration true) (device true) allSucceed)) =
       splashHeld ++
       [Called DeleteVault; Called RemovePassword; Called StorageClear] ++
       hr ++ rest ∧
     Forall (λ e, ∃ c r, e = Returned c r ∧
                         c ∈ [DeleteVault; RemovePassword; StorageClear]) hr ∧
     (rest = [] ∨ ∃ hl, rest = loadsCalled ++ hl)) ∧
  vaultStored (world (state (launch (mkConfiguration true) (device true)
                                    allSucceed))) = false ∧
  password (world (state (launch (mkConfiguration true) (device true)
                                 allSucceed))) = None ∧
  preferences (world (state (launch (mkConfiguration true) (device true)
                                    allSucceed))) = ∅ ∧
  preferences (world (state (launch (mkConfiguration true) (device true)
                                    allSucceed))) !! concealTokensKey = None.
Proof.
  split.
  - apply (proj1 (reset_wipes_the_stores (mkConfiguration true) (device true)
                    allSucceed eq_refl)).
    vm_compute. listed.
  - apply (proj2 (reset_wipes_the_stores (mkConfiguration true) (device true)
                    allSucceed eq_refl)).
    vm_compute. reflexivity.
Defined.

(** C3: BootstrapReadiness becomes true only strictly after the four
    loads have completed successfully, and never when one of them fails.
    In the history of a launch whose [isReady] is true, each of
    [checkVault], [loadSettings], [loadImages] and [loadFonts] has run to
    its end before [setReady(true)] is called; and once an operation awaited
    by one of the loads has been rejected, no continuation of the launch
    sets [isReady], calls [hideAsync] or hides the splash screen. *)
Theorem readiness_joins_the_loads (configuration : Configuration) (w : World)
        (es es' : list Event) :
  (isReady (state (launch configuration w es)) = true →
   ∃ h1 h2,
     history (state (launch configuration w es)) =
       h1 ++ Did (SetReady true) :: h2 ∧
     ∀ ld, completed ld h1) ∧
  (∀ ld,
     failed ld (history (state (launch configuration w es))) →
     isReady (state (launch configuration w (es ++ es'))) = false ∧
     splash (world (state (launch configuration w (es ++ es')))) ≠ SplashHidden ∧
     Called HideAsync ∉ history (state (launch configuration w (es ++ es')))).
Proof.
  split.
  - apply ready_after_loads.
  - intros ld Hfailed. apply (failed_not_ready _ _ _ ld).
    by apply failed_extends.
Qed.

Lemma readiness_joins_the_loads_witness :
  (∃ h1 h2,
     history (state (launch (mkConfiguration false) (device true) allSucceed)) =
       h1 ++ Did (SetReady true) :: h2 ∧
     ∀ ld, completed ld h1) ∧
  isReady (state (launch (mkConfiguration false) (device true)
                         (imagesFail ++ allSucceed))) = false.
Proof.
  split.
  - apply (proj1 (readiness_joins_the_loads (mkConfiguration false)
                    (device true) allSucceed [])).
    vm_compute. reflexivity.
  - apply (proj2 (readiness_joins_the_loads (mkConfiguration false)
                    (device true) imagesFail allSucceed) LoadImages).
    exists images. split; [reflexivity|]. vm_compute. listed.
Defined.



(** The amended C5: once [App] renders, exactly one of the two navigation
    subgraphs is mounted, chosen by [globalState.vault]: the post-vault
    screens when it is truthy, the pre-vault screens when it is not, and
    the two share no screen; while [isReady] is false no screen is
    mounted. *)
Theorem one_subgraph_once_ready (st : State) (g : GlobalState) :
  (isReady st = true →
   mounted st g = if Boolean (vault g) then PostVault else PreVault) ∧
  (isReady st = false → mounted st g = []) ∧
  (∀ r, r ∈ PreVault → r ∉ PostVault).
Proof.
  unfold mounted, App. split_and!.
  - intros ->. cbn. by destruct (Boolean (vault g)).
  - by intros ->.
  - intros r Hpre Hpost. unfold PreVault, PostVault in *.
    rewrite !elem_of_cons, elem_of_nil in Hpre.
    rewrite !elem_of_cons, elem_of_nil in Hpost.
    destruct Hpre as [->|[->|[->|[]]]];
      destruct Hpost as [?|[?|[?|[?|[]]]]]; discriminate.
Qed.

Lemma one_subgraph_once_ready_witness :
  mounted (state (launch (mkConfiguration false) (device true) allSucceed))
          (mkGlobalState JsObject) = PostVault ∧
  mounted (state (mount (mkConfiguration false) (device true)))
          (mkGlobalState JsObject) = [].
Proof.
  split.
  - apply (one_subgraph_once_ready
             (state (launch (mkConfiguration false) (device true) allSucceed))
             (mkGlobalState JsObject)).
    vm_compute. reflexivity.
  - apply (one_subgraph_once_ready
             (state (mount (mkConfiguration false) (device true)))
             (mkGlobalState JsObject)).
    vm_compute. reflexivity.
Defined.

(** C5 as stated fails while [App] renders [null]: right after mounting,
    with the vault locked, the pre-vault screens are not mounted, and no
    screen is. *)
Lemma no_subgraph_while_loading :
  Boolean (vault (mkGlobalState JsNull)) = false ∧
  mounted (state (mount (mkConfiguration false) (device true)))
          (mkGlobalState JsNull) = [] ∧
  mounted (state (mount (mkConfiguration false) (device true)))
          (mkGlobalState JsNull) ≠ PreVault ∧
  mounted (state (mount (mkConfiguration false) (device true)))
          (mkGlobalState JsNull) ≠ PostVault.
Proof. vm_compute. split_and!; [reflexivity|reflexivity|discriminate|discriminate]. Qed.



(** C7: with a reset directed, the three deletions have all completed
    before any of the four loads starts; without one, the handler does
    nothing.  In a launch with the directive, each of the three operations
    has returned successfully before the first call of each load.  In a
    launch without it, [deleteVault] and [storage.clear] are never called,
    [removePassword] is only called after the enrollment query has answered
    [false], that is by [loadSettings], the vault and the preference store
    stay as the launch found them, and so does the credential store as long
    as [removePassword] has not been called. *)
Theorem reset_precedes_the_loads (configuration : Configuration) (w : World)
        (es : list Event) :
  (shouldReset configuration = true →
   ∀ h1 h2 e,
     history (state (launch configuration w es)) = h1 ++ e :: h2 →
     e ∈ loadsCalled →
     Returned DeleteVault (Resolved JsUndefined) ∈ h1 ∧
     Returned RemovePassword (Resolved JsUndefined) ∈ h1 ∧
     Returned StorageClear (Resolved JsUndefined) ∈ h1) ∧
  (shouldReset configuration = false →
   (Called DeleteVault ∉ history (state (launch configuration w es))) ∧
   (Called StorageClear ∉ history (state (launch configuration w es))) ∧
   (∀ h1 h2,
      history (state (launch configuration w es)) =
        h1 ++ Called RemovePassword :: h2 →
      Returned IsEnrolledAsync (Resolved (JsBoolean false)) ∈ h1) ∧
   vaultStored (world (state (launch configuration w es))) = vaultStored w ∧
   preferences (world (state (launch configuration w es))) = preferences w ∧
   ((Called RemovePassword ∉ history (state (launch configuration w es))) →
    password (world (state (launch configuration w es))) = password w)).
Proof.
  split.
  - intros Hsr h1 h2 e Hsplit He.
    assert (Hin : e ∈ history (state (launch configuration w es))).
    { rewrite Hsplit. apply elem_of_app. right. apply list_elem_of_here. }
    destruct (launch_loading configuration w es e Hin) as
      (ls & hb & hl & tl & (cv & im & fo & Hh & Hb & _));
      [sift He; subst e; by eexists|sift He; by subst e|].
    assert (Hhb : e ∉ hb).
    { rewrite (Booted_inOrder configuration hb Hb). intros Hhb.
      sift He; subst e; sift Hhb. }
    rewrite Hsplit in Hh. symmetry in Hh.
    apply split_after_prefix in Hh as (h1' & -> & _); [|done].
    rewrite !elem_of_app, (Booted_inOrder configuration hb Hb), Hsr.
    split_and!; left; cbn;
      repeat first [ apply list_elem_of_here | apply list_elem_of_further ].
  - intros Hsr.
    destruct (launch_inOrder configuration w es)
      as (ph & Hwp & _ & Hh & _ & Hworld & _).
    split_and!.
    + rewrite Hh. intros Hin.
      destruct ph; cbn [inOrder wellPlaced] in Hin, Hwp;
        sift Hin; congruence.
    + rewrite Hh. intros Hin.
      destruct ph; cbn [inOrder wellPlaced] in Hin, Hwp;
        sift Hin; congruence.
    + intros h1 h2 Hsplit.
      assert (Hin : Called RemovePassword
                      ∈ history (state (launch configuration w es))).
      { rewrite Hsplit. apply elem_of_app. right. apply list_elem_of_here. }
      destruct (launch_loading configuration w es _ Hin) as
        (ls & hb & hl & tl & Hstarted); [by eexists|done|].
      destruct (LoadsStarted_reconciling _ _ _ _ _ _ _ _ Hstarted Hin)
        as (_ & _ & Hrm); [done..|].
      pose proof Hstarted as (? & ? & ? & _ & _ & _ & _ & Hrmwp & _).
      destruct (reconciledSoFar_remove configuration w ls Hrmwp Hrm)
        as (_ & post & Hrec & Hpost).
      destruct (LoadsStarted_before configuration w _ ls hb hl tl
                  (Called RemovePassword)
                  [Returned IsEnrolledAsync (Resolved (JsBoolean false))]
                  post h1 h2 Hstarted)
        as (h1' & -> & Hpart); try done.
      { intros Hpre. sift Hpre. }
      rewrite !elem_of_app. do 2 right.
      apply (elem_of_part writer LoadSettings). rewrite Hpart.
      apply list_elem_of_here.
    + rewrite Hworld.
      destruct ph; cbn [worldAt wellPlaced vaultStored] in Hwp |- *;
        unfold vaultAtLoads; try rewrite Hsr; congruence.
    + rewrite Hworld.
      destruct ph; cbn [worldAt wellPlaced preferences] in Hwp |- *;
        unfold preferencesAtLoads; try rewrite Hsr; congruence.
    + rewrite Hh, Hworld. intros Hnever.
      assert (Hat : passwordAtLoads configuration w = password w).
      { unfold passwordAtLoads. by rewrite Hsr. }
      assert (Hrec : ∀ ls,
                reconciled ls = true →
                Called RemovePassword ∉ reconciledSoFar configuration w ls →
                passwordReconciled configuration w = password w).
      { intros ls Hls Hnot. unfold passwordReconciled.
        destruct (enrolled w) eqn:Hen; [done|].
        destruct Hnot. by apply reconciled_removed. }
      destruct ph as [prevent|dv rp sc|cv ls im fo|hide];
        cbn [worldAt wellPlaced password inOrder] in Hwp, Hnever |- *.
      * done.
      * congruence.
      * destruct (reconciled ls) eqn:Hls; [|done].
        apply (Hrec ls Hls). intros Hin. apply Hnever.
        rewrite !elem_of_app. do 3 right. by left.
      * apply (Hrec LsEmitted eq_refl). intros Hin. apply Hnever.
        rewrite !elem_of_app. do 3 right. by left.
Qed.

Lemma reset_precedes_the_loads_witness :
  Returned DeleteVault (Resolved JsUndefined)
    ∈ splashHeld ++ resetCalled ++
      [Returned RemovePassword (Resolved JsUndefined);
       Returned DeleteVault (Resolved JsUndefined);
       Returned StorageClear (Resolved JsUndefined)] ∧
  (Called DeleteVault
     ∉ history (state (launch (mkConfiguration false) (device true) allSucceed))).
Proof.
  split.
  - eapply (proj1 (reset_precedes_the_loads (mkConfiguration true) (device true)
                     [mkEvent [] true; mkEvent [1] true; mkEvent [0] true;
                      mkEvent [2] true])
                  eq_refl _ _ (Called DoesVaultExist)).
    + vm_compute. reflexivity.
    + vm_compute. listed.
  - apply (proj2 (reset_precedes_the_loads (mkConfiguration false) (device true)
                    allSucceed)).
    reflexivity.
Defined.

(** C8: within a session BootstrapReadiness is monotonic.  [isReady] is
    false when [App] mounts; once a launch has it true, every continuation
    of the launch has it true; [setReady] is only ever called with [true],
    and at most once. *)
Theorem readiness_is_monotonic (configuration : Configuration) (w : World)
        (es es' : list Event) :
  isReady (state (mount configuration w)) = false ∧
  (isReady (state (launch configuration w es)) = true →
   isReady (state (launch configuration w (es ++ es'))) = true) ∧
  (∀ b, Did (SetReady b) ∈ history (state (launch configuration w es)) →
        b = true) ∧
  (occurrences (Did (SetReady true))
               (history (state (launch configuration w es))) ≤ 1)%nat.
Proof.
  split_and!.
  - reflexivity.
  - rewrite !isReady_SetReady.
    destruct (launch_extends configuration w es es') as [h' ->].
    intros Hin. apply elem_of_app. by left.
  - destruct (launch_inOrder configuration w es)
      as (ph & _ & _ & Hh & _). intros b. rewrite Hh.
    by intros [? _]%elem_of_inOrder_SetReady.
  - destruct (launch_inOrder configuration w es)
      as (ph & _ & _ & Hh & _).
    rewrite (occurrences_Permutation _ _ _ Hh).
    destruct ph; cbn [inOrder]; rewrite ?occurrences_app;
      repeat match goal with
      | |- context [occurrences ?e ?l] =>
          first [ rewrite (occurrences_absent e l) by (intros Hin; sift Hin)
                | let n := eval vm_compute in (occurrences e l) in
                  progress change (occurrences e l) with n ]
      end; lia.
Qed.

Lemma readiness_is_monotonic_witness :
  isReady (state (launch (mkConfiguration false) (device true)
                         (allSucceed ++ imagesFail))) = true.
Proof.
  apply (proj1 (proj2 (readiness_is_monotonic (mkConfiguration false)
                         (device true) allSucceed imagesFail))).
  vm_compute. reflexivity.
Defined.

(** The amended C9: the [concealTokens] field of the emitted snapshot is
    [Boolean(...)] of what the preference store holds under the
    conceal-tokens key: false when there is no value, true when the value
    is a string that is not empty, and false when it is the empty
    string. *)
Theorem conceal_tokens_is_truthiness (configuration : Configuration)
        (w : World) (es : list Event) (s : SettingsSnapshot) :
  let l := launch configuration w es in
  initialSettings (state l) = Some s →
  (∀ v, Returned GetConcealTokens (Resolved v) ∈ history (state l) →
        concealTokens s = Boolean v) ∧
  concealTokens s =
    Boolean (match preferences (world (state l)) !! concealTokensKey with
             | Some v => JsString v
             | None => JsNull
             end) ∧
  (concealTokens s = true ↔
   ∃ v, preferences (world (state l)) !! concealTokensKey = Some v ∧ v ≠ "").
Proof.
  intros l. subst l.
  destruct (launch_inOrder configuration w es)
    as (ph & _ & _ & Hh & _ & -> & _ & -> & _).
  intros Hs.
  assert (Hsnap : s = snapshot configuration w ∧
                  preferences (worldAt configuration w ph) =
                    preferencesAtLoads configuration w ∧
                  ∀ v, Returned GetConcealTokens (Resolved v)
                         ∈ inOrder configuration w ph →
                       v = concealTokensRead configuration w).
  { destruct ph as [| |cv [] im fo|hide]; try discriminate Hs;
      injection Hs as <-; (split_and!; [done|done|]);
      intros v Hin; cbn [inOrder] in Hin; sift Hin; by simplify_eq. }
  destruct Hsnap as (-> & -> & Hread). split_and!.
  - intros v Hv. rewrite Hh in Hv. by rewrite (Hread v Hv).
  - done.
  - cbn. unfold concealTokensRead.
    destruct (preferencesAtLoads configuration w !! concealTokensKey) as [v|];
      cbn.
    + rewrite negb_true_iff, String.eqb_neq. split; [by eauto|].
      by intros (? & [= <-] & ?).
    + split; [done|]. by intros (? & ? & _).
Qed.

Lemma conceal_tokens_is_truthiness_witness :
  concealTokens (mkSettings true true) = true ↔
  ∃ v, preferences
         (world (state (launch (mkConfiguration false) (device true) allSucceed)))
         !! concealTokensKey = Some v ∧ v ≠ "".
Proof.
  apply (conceal_tokens_is_truthiness (mkConfiguration false) (device true)
           allSucceed (mkSettings true true)).
  vm_compute. reflexivity.
Defined.

(** C9 as stated fails for a value that is not truthy: with the empty
    string stored under the conceal-tokens key, a value exists and the
    snapshot has [concealTokens] false. *)
Lemma empty_preference_reads_false :
  ∃ s,
    initialSettings
      (state (launch (mkConfiguration false) deviceWithEmptyPreference
                     allSucceed)) = Some s ∧
    preferences
      (world (state (launch (mkConfiguration false) deviceWithEmptyPreference
                            allSucceed))) !! concealTokensKey = Some "" ∧
    concealTokens s = false.
Proof. exists (mkSettings true false). vm_compute. split_and!; reflexivity. Qed.

(** C10: before BootstrapReadiness is true [App] renders nothing.  With
    [isReady] false [App] returns [null], so there is no navigation
    container, no settings are handed to [GlobalStateProvider] and no
    initial route is chosen; this is the case of every launch in which one
    of the four loads has not completed, and of every continuation of a
    launch in which one of them has failed. *)
Theorem renders_nothing_until_ready (configuration : Configuration) (w : World)
        (es es' : list Event) :
  (∀ st, isReady st = false → App st = None ∧ ∀ g, mounted st g = []) ∧
  (∀ ld,
     ¬ completed ld (history (state (launch configuration w es))) →
     App (state (launch configuration w es)) = None) ∧
  (∀ ld,
     failed ld (history (state (launch configuration w es))) →
     App (state (launch configuration w (es ++ es'))) = None).
Proof.
  assert (Hnull : ∀ st, isReady st = false →
                        App st = None ∧ ∀ g, mounted st g = []).
  { intros st Hst. unfold mounted, App. by rewrite Hst. }
  split_and!.
  - exact Hnull.
  - intros ld Hld. apply Hnull.
    destruct (isReady (state (launch configuration w es))) eqn:Hready; [|done].
    destruct (ready_after_loads _ _ _ Hready) as (h1 & h2 & Hh & Hdone).
    destruct Hld. rewrite Hh.
    specialize (Hdone ld).
    destruct ld; cbn [completed] in *; destruct Hdone as [x Hx]; exists x;
      apply elem_of_app; by left.
  - intros ld Hfailed. apply Hnull.
    apply (failed_not_ready _ _ _ ld). by apply failed_extends.
Qed.

Lemma renders_nothing_until_ready_witness :
  App (state (mount (mkConfiguration false) (device true))) = None ∧
  App (state (launch (mkConfiguration false) (device true) imagesFail)) = None ∧
  App (state (launch (mkConfiguration false) (device true)
                     (imagesFail ++ allSucceed))) = None.
Proof.
  split_and!.
  - apply (proj1 (renders_nothing_until_ready (mkConfiguration false)
                    (device true) [] [])).
    vm_compute. reflexivity.
  - apply (proj1 (proj2 (renders_nothing_until_ready (mkConfiguration false)
                           (device true) imagesFail [])) LoadFonts).
    cbn [completed]. intros [v Hv]. vm_compute in Hv.
    repeat (apply elem_of_cons in Hv as [Hv|Hv]; [discriminate Hv|]).
    by apply elem_of_nil in Hv.
  - apply (proj2 (proj2 (renders_nothing_until_ready (mkConfiguration false)
                           (device true) imagesFail allSucceed)) LoadImages).
    exists images. split; [reflexivity|]. vm_compute. listed.
Defined.

(** * Further properties of the launch *)

(** ** Properties kept along a launch *)

(** A property of control points that the transitions keep holds all along
    a launch. *)
Lemma run_atPhase_keeps (configuration : Configuration) (w0 : World)
      (P : Phase → Prop) (es : list Event) (ph : Phase) (h : list Entry) :
  (∀ e ph ph' es,
     wellPlaced configuration w0 ph → P ph →
     advance configuration w0 e ph = Some (ph', es) → P ph') →
  wellPlaced configuration w0 ph →
  Chronicle configuration w0 ph h →
  P ph →
  ∃ ph' h',
    run es (atPhase configuration w0 ph h) =
      atPhase configuration w0 ph' (h ++ h') ∧
    wellPlaced configuration w0 ph' ∧
    Chronicle configuration w0 ph' (h ++ h') ∧
    P ph'.
Proof.
  intros Hkeeps. revert ph h. induction es as [|e es IH]; intros ph h Hwp Hch HP.
  - exists ph, []. rewrite app_nil_r. done.
  - cbn. rewrite step_atPhase by done.
    destruct (advance configuration w0 e ph) as [[ph1 es1]|] eqn:Hadv.
    + destruct (IH ph1 (h ++ es1)) as (ph' & h' & Hrun & Hwp' & Hch' & HP').
      * by eapply advance_wellPlaced.
      * by eapply advance_Chronicle.
      * by eapply Hkeeps.
      * exists ph', (es1 ++ h'). rewrite app_assoc. done.
    + by apply IH.
Qed.

Lemma advance_unjoined (configuration : Configuration) (w0 : World)
      (e : Event) (ph ph' : Phase) (es : list Entry) :
  wellPlaced configuration w0 ph →
  unjoined ph →
  advance configuration w0 e ph = Some (ph', es) →
  unjoined ph'.
Proof.
  intros _.
  destruct configuration as [sr], w0 as [v p m en s], e as [path ok].
  destruct sr, en, ph as [[]|[] [] []|[] [] [] []|[]];
    cbn [unjoined]; intros Hun;
    destruct path as [|[|[|[|[|i]]]] [|j path]], ok;
    cbn; intros [= <- <-]; cbn; try done;
    try (by destruct Hun);
    (split; [done|]); intros c' [= <-]; unfold calledByLoadSettings;
    listed.
Qed.

Lemma launch_unjoined (configuration : Configuration) (w0 : World)
      (es : list Event) :
  ∃ ph h,
    launch configuration w0 es = atPhase configuration w0 ph h ∧
    wellPlaced configuration w0 ph ∧
    Chronicle configuration w0 ph h ∧
    unjoined ph.
Proof.
  unfold launch. rewrite mount_atPhase.
  destruct (run_atPhase_keeps configuration w0 unjoined es (Splashing InFlight)
                              [Called PreventAutoHideAsync])
    as (ph & h & Hrun & Hwp & Hch & Hun);
    [intros e ph ph' es'; apply advance_unjoined|done..|].
  eauto 10.
Qed.

(** ** Progress *)

(** Every transition adds to the history. *)
Lemma advance_records (configuration : Configuration) (w0 : World)
      (e : Event) (ph ph' : Phase) (es : list Entry) :
  advance configuration w0 e ph = Some (ph', es) → es ≠ [].
Proof.
  destruct configuration as [sr], w0 as [v p m en s], e as [path ok].
  destruct sr, en, ph as [[]|[] [] []|[] [] [] []|[]];
    destruct path as [|[|[|[|[|i]]]] [|j path]], ok;
    cbn; intros [= <- <-]; done.
Qed.

Lemma quiescent_idle (configuration : Configuration) (w0 : World)
      (ph : Phase) (h : list Entry) :
  wellPlaced configuration w0 ph →
  quiescent (atPhase configuration w0 ph h) →
  ∀ e, advance configuration w0 e ph = None.
Proof.
  intros Hwp Hq e. specialize (Hq e). rewrite step_atPhase in Hq by done.
  destruct (advance configuration w0 e ph) as [[ph' es]|] eqn:Hadv; [|done].
  apply advance_records in Hadv. apply (f_equal (λ l, history (state l))) in Hq.
  cbn in Hq. rewrite <- (app_nil_r h) in Hq at 2.
  by apply app_inv_head in Hq.
Qed.

(** A launch at rest at a control point has finished or has a rejected
    operation in its history. *)
Lemma idle_finished_or_rejected (configuration : Configuration) (w0 : World)
      (ph : Phase) :
  (∀ e, advance configuration w0 e ph = None) →
  unjoined ph →
  ph = Ready Kept ∨
  ∃ c, Returned c Failed ∈ inOrder configuration w0 ph.
Proof.
  intros Hidle Hun.
  pose proof (Hidle (mkEvent [] true)) as H.
  pose proof (Hidle (mkEvent [0] true)) as H0.
  pose proof (Hidle (mkEvent [1] true)) as H1.
  pose proof (Hidle (mkEvent [2] true)) as H2.
  pose proof (Hidle (mkEvent [3] true)) as H3.
  clear Hidle.
  destruct ph as [[]|[] [] []|[] ls [] []|[]]; cbn in H, H0, H1, H2, H3, Hun;
    try discriminate; try done; try (by left); right;
    try (destruct ls as [| | | | |c]; cbn in H1, Hun; try discriminate;
         try (by destruct Hun));
    cbn [inOrder outcome checkedSoFar checked];
    try (by (eexists; rewrite ?elem_of_app, ?elem_of_cons; eauto 20)).
  destruct Hun as [_ Hc]. specialize (Hc c eq_refl).
  unfold calledByLoadSettings in Hc.
  exists c. rewrite !elem_of_app. do 3 right. left.
  sift Hc; subst c; cbn;
    repeat first [ rewrite elem_of_app | rewrite elem_of_cons ]; eauto 20.
Qed.

(** X1: bootstrap cannot get stuck.  A launch in which nothing is in flight
    any more has run [initialize] to its end, with [isReady] true and the
    splash screen hidden, unless one of its operations was rejected; and
    on the schedule on which every operation succeeds the launch does run
    to its end, whatever the configuration and the stores. *)
Theorem bootstrap_completes (configuration : Configuration) (w : World)
        (es : list Event) :
  (quiescent (launch configuration w es) →
   finished (launch configuration w es) ∨
   ∃ c, Returned c Failed ∈ history (state (launch configuration w es))) ∧
  (finished (launch configuration w es) →
   quiescent (launch configuration w es)) ∧
  finished (launch configuration w allSucceed).
Proof.
  split_and!.
  - destruct (launch_unjoined configuration w es) as (ph & h & -> & Hwp & Hch & Hun).
    intros Hq.
    destruct (idle_finished_or_rejected configuration w ph) as [->|[c Hc]];
      [by eapply quiescent_idle|done| |].
    + left. done.
    + right. exists c. cbn. by rewrite (Chronicle_inOrder _ _ _ _ Hch).
  - intros (Hmain & _ & _) [path ok]. unfold step. rewrite Hmain.
    by destruct path.
  - destruct configuration as [[]], w as [v p m [] s]; done.
Qed.

Lemma bootstrap_completes_witness :
  finished (launch (mkConfiguration false) (device true) allSucceed) ∨
  ∃ c, Returned c Failed
         ∈ history (state (launch (mkConfiguration false) (device true)
                                  allSucceed)).
Proof.
  apply (proj1 (bootstrap_completes (mkConfiguration false) (device true)
                  allSucceed)).
  intros [path ok]. unfold step.
  change (main (launch (mkConfiguration false) (device true) allSucceed))
    with Fulfilled.
  by destruct path.
Defined.

(** ** What a ready launch holds *)

Lemma App_isReady (st : State) (el : Element) :
  App st = Some el → isReady st = true.
Proof. unfold App. by destruct (isReady st). Qed.

(** The cells and the stores of a launch whose [isReady] is true. *)
Lemma launch_ready (configuration : Configuration) (w0 : World)
      (es : list Event) :
  isReady (state (launch configuration w0 es)) = true →
  vaultExists (state (launch configuration w0 es)) =
    JsBoolean (vaultAtLoads configuration w0) ∧
  initialSettings (state (launch configuration w0 es)) =
    Some (snapshot configuration w0) ∧
  vaultStored (world (state (launch configuration w0 es))) =
    vaultAtLoads configuration w0 ∧
  password (world (state (launch configuration w0 es))) =
    passwordReconciled configuration w0 ∧
  preferences (world (state (launch configuration w0 es))) =
    preferencesAtLoads configuration w0.
Proof.
  destruct (launch_inOrder configuration w0 es)
    as (ph & _ & _ & _ & _ & -> & -> & -> & ->).
  by destruct ph.
Qed.

(** A snapshot, whenever it is emitted, is the one the stores determine. *)
Lemma launch_emitted (configuration : Configuration) (w0 : World)
      (es : list Event) (s : SettingsSnapshot) :
  initialSettings (state (launch configuration w0 es)) = Some s →
  s = snapshot configuration w0.
Proof.
  destruct (launch_inOrder configuration w0 es)
    as (ph & _ & _ & _ & _ & _ & _ & -> & _).
  destruct ph as [| |? [] ? ?|]; intros [= <-]; done.
Qed.

(** X2: what bootstrap produces does not depend on the order in which the
    operations settle.  Two launches of one configuration on the same
    stores emit the same snapshot if both emit one, and once both are ready
    they render the same element and leave the same stores. *)
Theorem outcome_independent_of_schedule (configuration : Configuration)
        (w : World) (es1 es2 : list Event) :
  (∀ s1 s2,
     initialSettings (state (launch configuration w es1)) = Some s1 →
     initialSettings (state (launch configuration w es2)) = Some s2 →
     s1 = s2) ∧
  (isReady (state (launch configuration w es1)) = true →
   isReady (state (launch configuration w es2)) = true →
   App (state (launch configuration w es1)) =
     App (state (launch configuration w es2)) ∧
   vaultStored (world (state (launch configuration w es1))) =
     vaultStored (world (state (launch configuration w es2))) ∧
   password (world (state (launch configuration w es1))) =
     password (world (state (launch configuration w es2))) ∧
   preferences (world (state (launch configuration w es1))) =
     preferences (world (state (launch configuration w es2)))).
Proof.
  split.
  - intros s1 s2 ->%launch_emitted ->%launch_emitted. done.
  - intros Hr1 Hr2.
    destruct (launch_ready _ _ _ Hr1) as (Hv1 & Hs1 & -> & -> & ->).
    destruct (launch_ready _ _ _ Hr2) as (Hv2 & Hs2 & -> & -> & ->).
    split; [|done]. unfold App. by rewrite Hr1, Hr2, Hv1, Hv2, Hs1, Hs2.
Qed.

Lemma outcome_independent_of_schedule_witness :
  App (state (launch (mkConfiguration false) (device false) allSucceed)) =
  App (state (launch (mkConfiguration false) (device false)
                     [mkEvent [] true; mkEvent [3] true; mkEvent [2] true;
                      mkEvent [1] true; mkEvent [1] true; mkEvent [0] true;
                      mkEvent [1] true; mkEvent [1] true; mkEvent [] false])).
Proof.
  apply (proj2 (outcome_independent_of_schedule (mkConfiguration false)
                  (device false) allSucceed
                  [mkEvent [] true; mkEvent [3] true; mkEvent [2] true;
                   mkEvent [1] true; mkEvent [1] true; mkEvent [0] true;
                   mkEvent [1] true; mkEvent [1] true; mkEvent [] false])).
  - vm_compute. reflexivity.
  - vm_compute. reflexivity.
Defined.

(** X3: what [App] hands to [GlobalStateProvider] is never [null], and it
    agrees with the stores at the moment of rendering: [biometricUnlock]
    and [concealTokens] are [Boolean] of what [getPassword] and
    [getConcealTokens] would resolve to now. *)
Theorem rendered_settings_match_stores (configuration : Configuration)
        (w : World) (es : list Event) (el : Element) :
  App (state (launch configuration w es)) = Some el →
  ∃ s,
    settings el = Some s ∧
    biometricUnlock s =
      Boolean (credentialNow (state (launch configuration w es))) ∧
    concealTokens s =
      Boolean (concealTokensNow (state (launch configuration w es))).
Proof.
  intros Happ. pose proof (App_isReady _ _ Happ) as Hready.
  destruct (launch_ready _ _ _ Hready) as (_ & Hs & _ & Hpw & Hprefs).
  unfold App in Happ. rewrite Hready, Hs in Happ. injection Happ as <-.
  exists (snapshot configuration w). split; [done|].
  unfold credentialNow, concealTokensNow. cbn. by rewrite Hpw, Hprefs.
Qed.

Lemma rendered_settings_match_stores_witness :
  ∃ el s,
    App (state (launch (mkConfiguration false) deviceAfterUnenrolling allSucceed))
      = Some el ∧
    settings el = Some s ∧
    biometricUnlock s =
      Boolean (credentialNow
                 (state (launch (mkConfiguration false) deviceAfterUnenrolling
                                allSucceed))).
Proof.
  destruct (App (state (launch (mkConfiguration false) deviceAfterUnenrolling
                               allSucceed)))
    as [el|] eqn:Happ; [|vm_compute in Happ; discriminate Happ].
  destruct (rendered_settings_match_stores _ _ _ el Happ) as (s & Hs & Hbu & _).
  exists el, s. done.
Defined.

(** X5: the initial route and the settings are decided once.  When [App]
    has rendered an element, it renders the same element after any further
    events of the launch. *)
Theorem render_is_decided_once (configuration : Configuration) (w : World)
        (es es' : list Event) (el : Element) :
  App (state (launch configuration w es)) = Some el →
  App (state (launch configuration w (es ++ es'))) = Some el.
Proof.
  intros Happ. pose proof (App_isReady _ _ Happ) as Hready.
  assert (Hready' : isReady (state (launch configuration w (es ++ es'))) = true).
  { rewrite isReady_SetReady in Hready |- *.
    destruct (launch_extends configuration w es es') as [h' ->].
    apply elem_of_app. by left. }
  destruct (launch_ready _ _ _ Hready) as (Hv & Hs & _).
  destruct (launch_ready _ _ _ Hready') as (Hv' & Hs' & _).
  unfold App in *. rewrite Hready, Hv, Hs in Happ.
  by rewrite Hready', Hv', Hs'.
Qed.

Lemma render_is_decided_once_witness :
  ∃ el,
    App (state (launch (mkConfiguration false) (device true)
                       (allSucceed ++ imagesFail))) = Some el.
Proof.
  destruct (App (state (launch (mkConfiguration false) (device true) allSucceed)))
    as [el|] eqn:Happ; [|vm_compute in Happ; discriminate Happ].
  exists el.
  apply (render_is_decided_once (mkConfiguration false) (device true)
           allSucceed imagesFail el Happ).
Defined.

(** X6: a launch with a reset lands on [Welcome] with both settings off.
    With [shouldReset] true, every snapshot that is emitted has
    [biometricUnlock] and [concealTokens] false, and whenever [App] renders
    the initial route is [Welcome], whatever the stores held. *)
Theorem reset_lands_on_welcome (configuration : Configuration) (w : World)
        (es : list Event) :
  shouldReset configuration = true →
  (∀ s, initialSettings (state (launch configuration w es)) = Some s →
        s = mkSettings false false) ∧
  (∀ el g, App (state (launch configuration w es)) = Some el →
           initialRouteName (children el g) = Welcome).
Proof.
  intros Hsr. split.
  - intros s ->%launch_emitted. unfold snapshot, passwordRead, concealTokensRead,
      passwordReconciled, passwordAtLoads, preferencesAtLoads.
    rewrite Hsr, lookup_empty. by destruct (enrolled w).
  - intros el g Happ. pose proof (App_isReady _ _ Happ) as Hready.
    destruct (launch_ready _ _ _ Hready) as (Hv & _).
    unfold App in Happ. rewrite Hready, Hv in Happ. injection Happ as <-.
    cbn. unfold vaultAtLoads. by rewrite Hsr.
Qed.

Lemma reset_lands_on_welcome_witness :
  initialSettings (state (launch (mkConfiguration true) (device true) allSucceed))
    = Some (mkSettings false false).
Proof.
  assert (H : ∀ o : option SettingsSnapshot,
            (∀ s, o = Some s → s = mkSettings false false) →
            is_Some o → o = Some (mkSettings false false)).
  { intros o Ho [s ->]. by rewrite (Ho s eq_refl). }
  apply H.
  - apply (reset_lands_on_welcome (mkConfiguration true) (device true) allSucceed).
    reflexivity.
  - vm_compute. by eexists.
Defined.

(** X12: the initial route is always a pre-vault screen, so it names a
    screen of the navigator exactly when the vault is locked.  Whenever
    [App] renders, [initialRouteName] is among the screens declared under
    the navigator if and only if [globalState.vault] is falsy. *)
Theorem initial_route_is_mounted_iff_locked (st : State) (el : Element)
        (g : GlobalState) :
  App st = Some el →
  initialRouteName (children el g) ∈ PreVault ∧
  (initialRouteName (children el g) ∈ name <$> screens (children el g) ↔
   Boolean (vault g) = false).
Proof.
  unfold App. destruct (isReady st); [|done]. intros [= <-]. cbn.
  destruct (Boolean (vaultExists st)), (Boolean (vault g)); cbn;
    (split; [unfold PreVault; listed|]); split; intros Hin;
    try done; try (by listed); sift Hin.
Qed.

Lemma initial_route_is_mounted_iff_locked_witness :
  ∃ el,
    App (state (launch (mkConfiguration false) (device true) allSucceed))
      = Some el ∧
    initialRouteName (children el (mkGlobalState JsObject)) ∈ PreVault.
Proof.
  destruct (App (state (launch (mkConfiguration false) (device true) allSucceed)))
    as [el|] eqn:Happ; [|vm_compute in Happ; discriminate Happ].
  exists el. split; [reflexivity|].
  apply (initial_route_is_mounted_iff_locked _ el (mkGlobalState JsObject) Happ).
Defined.

(** ** Rejected operations *)

(** Where a launch stands after it went on from a control point, for a
    property of control points that the transitions keep. *)
Lemma launch_keeps (configuration : Configuration) (w0 : World)
      (P : Phase → Prop) (es es' : list Event) :
  (∀ e ph ph' es,
     wellPlaced configuration w0 ph → P ph →
     advance configuration w0 e ph = Some (ph', es) → P ph') →
  (∀ ph, wellPlaced configuration w0 ph →
         Chronicle configuration w0 ph
                   (history (state (launch configuration w0 es))) →
         P ph) →
  ∃ ph h,
    launch configuration w0 (es ++ es') = atPhase configuration w0 ph h ∧
    wellPlaced configuration w0 ph ∧
    Chronicle configuration w0 ph h ∧
    P ph.
Proof.
  intros Hkeeps Hnow. rewrite launch_app.
  destruct (launch_atPhase configuration w0 es) as (ph & h & Hl & Hwp & Hch).
  rewrite Hl in Hnow |- *.
  destruct (run_atPhase_keeps configuration w0 P es' ph h Hkeeps Hwp Hch)
    as (ph' & h' & -> & Hwp' & Hch' & HP); [by apply Hnow|].
  eauto 10.
Qed.

(** X8: when [preventAutoHideAsync] is rejected, [initialize] stops there.
    In every continuation of such a launch nothing else has been called,
    the stores and the splash screen are as the launch found them,
    [initialize] is rejected and [isReady] is false. *)
Theorem rejected_splash_hold_stops_the_launch (configuration : Configuration)
        (w : World) (es es' : list Event) :
  Returned PreventAutoHideAsync Failed
    ∈ history (state (launch configuration w es)) →
  history (state (launch configuration w (es ++ es'))) =
    [Called PreventAutoHideAsync; Returned PreventAutoHideAsync Failed] ∧
  world (state (launch configuration w (es ++ es'))) = w ∧
  main (launch configuration w (es ++ es')) = Rejected PreventAutoHideAsync ∧
  isReady (state (launch configuration w (es ++ es'))) = false.
Proof.
  intros Hin.
  destruct (launch_keeps configuration w (λ ph, ph = Splashing Broken) es es')
    as (ph & h & -> & _ & Hch & ->).
  - intros e ph ph' es0 _ ->. destruct e as [[|i path] ok]; discriminate.
  - intros ph Hwp Hch. apply Chronicle_inOrder in Hch. rewrite Hch in Hin.
    destruct ph; cbn [inOrder] in Hin; sift Hin; by simplify_eq.
  - destruct Hch as [-> _]. done.
Qed.

Lemma rejected_splash_hold_stops_the_launch_witness :
  world (state (launch (mkConfiguration true) (device true)
                       ([mkEvent [] false] ++ allSucceed))) = device true.
Proof.
  apply (rejected_splash_hold_stops_the_launch (mkConfiguration true)
           (device true) [mkEvent [] false] allSucceed).
  vm_compute. listed.
Defined.

(** X7: [setReady(true)] comes before [hideAsync].  A launch that found the
    splash screen showing has it hidden only when [initialize] has run to
    its end; and when [hideAsync] is rejected, in every continuation
    [isReady] stays true and [App] renders while the splash screen stays
    held and [initialize] is rejected. *)
Theorem rejected_hide_leaves_app_ready (configuration : Configuration)
        (w : World) (es es' : list Event) :
  (splash w ≠ SplashHidden →
   splash (world (state (launch configuration w es))) = SplashHidden →
   finished (launch configuration w es)) ∧
  (Returned HideAsync Failed ∈ history (state (launch configuration w es)) →
   isReady (state (launch configuration w (es ++ es'))) = true ∧
   is_Some (App (state (launch configuration w (es ++ es')))) ∧
   splash (world (state (launch configuration w (es ++ es')))) = SplashHeld ∧
   main (launch configuration w (es ++ es')) = Rejected HideAsync).
Proof.
  split.
  - destruct (launch_atPhase configuration w es) as (ph & h & -> & _ & _).
    intros Hw. by destruct ph as [| | |[]].
  - intros Hin.
    destruct (launch_keeps configuration w (λ ph, ph = Ready Broken) es es')
      as (ph & h & -> & _ & _ & ->).
    + intros e ph ph' es0 _ ->. destruct e as [[|i path] ok]; discriminate.
    + intros ph Hwp Hch. apply Chronicle_inOrder in Hch. rewrite Hch in Hin.
      destruct ph; cbn [inOrder] in Hin; sift Hin; by simplify_eq.
    + by split_and!.
Qed.

Lemma rejected_hide_leaves_app_ready_witness :
  finished (launch (mkConfiguration false) (device true) allSucceed) ∧
  isReady (state (launch (mkConfiguration false) (device true)
                         ([mkEvent [] true; mkEvent [0] true; mkEvent [1] true;
                           mkEvent [1] true; mkEvent [1] true; mkEvent [2] true;
                           mkEvent [3] true; mkEvent [] false] ++ allSucceed)))
    = true.
Proof.
  split.
  - apply (proj1 (rejected_hide_leaves_app_ready (mkConfiguration false)
                    (device true) allSucceed [])).
    + discriminate.
    + vm_compute. reflexivity.
  - apply (proj2 (rejected_hide_leaves_app_ready (mkConfiguration false)
                    (device true)
                    [mkEvent [] true; mkEvent [0] true; mkEvent [1] true;
                     mkEvent [1] true; mkEvent [1] true; mkEvent [2] true;
                     mkEvent [3] true; mkEvent [] false] allSucceed)).
    vm_compute. listed.
Defined.

Lemma advance_resetBroken (configuration : Configuration) (w0 : World)
      (e : Event) (ph ph' : Phase) (es : list Entry) :
  wellPlaced configuration w0 ph →
  resetBroken ph →
  advance configuration w0 e ph = Some (ph', es) →
  resetBroken ph'.
Proof.
  intros _. destruct e as [path ok].
  destruct ph as [|dv rp sc| |]; cbn [resetBroken]; try done.
  intros Hbroken.
  destruct path as [|[|[|[|i]]] [|j path]], ok, dv, rp, sc;
    cbn; intros [= <- <-]; cbn; try done;
    (destruct Hbroken as [?|[?|?]]; try discriminate); auto.
Qed.

(** X9: the reset is not atomic.  While the three deletions are under way
    each store is emptied exactly when its own deletion has succeeded,
    whatever happens to the other two; and once one of them was rejected,
    in every continuation none of the four loads is ever called, [isReady]
    stays false and [App] renders [null]. *)
Theorem reset_is_not_atomic (configuration : Configuration) (w : World)
        (es es' : list Event) (c : Extern) :
  (Returned PreventAutoHideAsync (Resolved JsUndefined)
     ∈ history (state (launch configuration w es)) →
   (Called DoesVaultExist ∉ history (state (launch configuration w es))) →
   (vaultStored (world (state (launch configuration w es))) =
      if bool_decide (Returned DeleteVault (Resolved JsUndefined)
                        ∈ history (state (launch configuration w es)))
      then false else vaultStored w) ∧
   (password (world (state (launch configuration w es))) =
      if bool_decide (Returned RemovePassword (Resolved JsUndefined)
                        ∈ history (state (launch configuration w es)))
      then None else password w) ∧
   (preferences (world (state (launch configuration w es))) =
      if bool_decide (Returned StorageClear (Resolved JsUndefined)
                        ∈ history (state (launch configuration w es)))
      then ∅ else preferences w)) ∧
  (c ∈ [DeleteVault; RemovePassword; StorageClear] →
   Returned c Failed ∈ history (state (launch configuration w es)) →
   (Called DoesVaultExist ∉ history (state (launch configuration w es))) →
   (∀ e, e ∈ loadsCalled →
         e ∉ history (state (launch configuration w (es ++ es')))) ∧
   isReady (state (launch configuration w (es ++ es'))) = false ∧
   App (state (launch configuration w (es ++ es'))) = None).
Proof.
  split.
  - destruct (launch_inOrder configuration w es)
      as (ph & _ & Hch & Hh & _ & -> & _).
    intros Hheld Hloads. rewrite Hh in Hheld, Hloads.
    destruct ph as [prevent|dv rp sc|cv ls im fo|hide]; cbn [inOrder] in *.
    + destruct Hch as [_ Hprevent]. sift Hheld; by simplify_eq.
    + split_and!; case_bool_decide as Hin; rewrite Hh in Hin;
        cbn [inOrder] in Hin; cbn;
        first [ by destruct dv, rp, sc; sift Hin
              | destruct dv, rp, sc; try done; destruct Hin;
                rewrite !elem_of_app; cbn; rewrite ?elem_of_cons; eauto 20 ].
    + destruct Hloads. rewrite !elem_of_app. right. left. listed.
    + destruct Hloads. rewrite !elem_of_app. right. left. listed.
  - intros Hc Hin Hloads.
    destruct (launch_keeps configuration w resetBroken es es')
      as (ph & h & -> & _ & Hch & Hbroken).
    + apply advance_resetBroken.
    + intros ph Hwp Hch. apply Chronicle_inOrder in Hch.
      rewrite Hch in Hin, Hloads.
      destruct ph as [prevent|dv rp sc|cv ls im fo|hide];
        cbn [inOrder resetBroken] in *.
      * sift Hc; subst c; sift Hin.
      * sift Hin; simplify_eq; tauto.
      * destruct Hloads. rewrite !elem_of_app. right. left. listed.
      * destruct Hloads. rewrite !elem_of_app. right. left. listed.
    + destruct ph as [|dv rp sc| |]; try done.
      apply Chronicle_inOrder in Hch. cbn. split_and!; try done.
      intros e He. rewrite Hch. cbn [inOrder]. intros Hin'.
      sift He; subst e; sift Hin'.
Qed.

Lemma reset_is_not_atomic_witness :
  password (world (state (launch (mkConfiguration true) (device true)
                                 [mkEvent [] true; mkEvent [1] true;
                                  mkEvent [0] false]))) = None ∧
  vaultStored (world (state (launch (mkConfiguration true) (device true)
                                    [mkEvent [] true; mkEvent [1] true;
                                     mkEvent [0] false]))) = true ∧
  App (state (launch (mkConfiguration true) (device true)
                     ([mkEvent [] true; mkEvent [1] true; mkEvent [0] false]
                      ++ allSucceed))) = None.
Proof.
  split_and!.
  - apply (proj1 (reset_is_not_atomic (mkConfiguration true) (device true)
                    [mkEvent [] true; mkEvent [1] true; mkEvent [0] false]
                    [] DeleteVault)).
    + vm_compute. listed.
    + intros Hin. vm_compute in Hin.
      repeat (apply elem_of_cons in Hin as [Hin|Hin]; [discriminate Hin|]).
      by apply elem_of_nil in Hin.
  - apply (proj1 (reset_is_not_atomic (mkConfiguration true) (device true)
                    [mkEvent [] true; mkEvent [1] true; mkEvent [0] false]
                    [] DeleteVault)).
    + vm_compute. listed.
    + intros Hin. vm_compute in Hin.
      repeat (apply elem_of_cons in Hin as [Hin|Hin]; [discriminate Hin|]).
      by apply elem_of_nil in Hin.
  - apply (proj2 (reset_is_not_atomic (mkConfiguration true) (device true)
                    [mkEvent [] true; mkEvent [1] true; mkEvent [0] false]
                    allSucceed DeleteVault)).
    + listed.
    + vm_compute. listed.
    + intros Hin. vm_compute in Hin.
      repeat (apply elem_of_cons in Hin as [Hin|Hin]; [discriminate Hin|]).
      by apply elem_of_nil in Hin.
Defined.

(** X11: [loadSettings] stops at the first rejection.  When the enrollment
    query is rejected, or the removal that follows it when nothing was
    reset, then in every continuation the credential and the preference
    are never read, the credential is the one the loads found, no snapshot
    is ever emitted and [isReady] stays false. *)
Theorem rejected_query_reads_nothing (configuration : Configuration)
        (w : World) (es es' : list Event) (c : Extern) :
  c = IsEnrolledAsync ∨
  (c = RemovePassword ∧ shouldReset configuration = false) →
  Returned c Failed ∈ history (state (launch configuration w es)) →
  (Called GetPassword
     ∉ history (state (launch configuration w (es ++ es')))) ∧
  (Called GetConcealTokens
     ∉ history (state (launch configuration w (es ++ es')))) ∧
  password (world (state (launch configuration w (es ++ es')))) =
    (if shouldReset configuration then None else password w) ∧
  initialSettings (state (launch configuration w (es ++ es'))) = None ∧
  isReady (state (launch configuration w (es ++ es'))) = false.
Proof.
  intros Hc Hin.
  assert (Returned c Failed
            ∈ history (state (launch configuration w (es ++ es')))) as Hin'.
  { destruct (launch_extends configuration w es es') as [h' ->].
    apply elem_of_app. by left. }
  clear Hin. rename Hin' into Hin.
  destruct (launch_inOrder configuration w (es ++ es'))
    as (ph & Hwp & _ & Hh & _ & -> & _ & -> & ->).
  rewrite Hh in Hin |- *. clear Hh.
  destruct configuration as [sr]. cbn [shouldReset] in *.
  destruct Hc as [->|[-> ->]].
  - destruct ph as [prevent|dv rp sc|cv ls im fo|hide]; cbn [inOrder] in *;
      sift Hin; simplify_eq;
      (split_and!; [intros Hin'; sift Hin'|intros Hin'; sift Hin'|..]);
      try done; by destruct sr.
  - destruct ph as [prevent|dv rp sc|cv ls im fo|hide]; cbn [inOrder] in *;
      try (by destruct Hwp);
      sift Hin; simplify_eq;
      (split_and!; [intros Hin'; sift Hin'|intros Hin'; sift Hin'|..]);
      done.
Qed.

Lemma rejected_query_reads_nothing_witness :
  initialSettings (state (launch (mkConfiguration false) (device true)
                                 ([mkEvent [] true; mkEvent [1] false]
                                  ++ allSucceed))) = None.
Proof.
  apply (rejected_query_reads_nothing (mkConfiguration false) (device true)
           [mkEvent [] true; mkEvent [1] false] allSucceed IsEnrolledAsync).
  - left. reflexivity.
  - vm_compute. listed.
Defined.

(** X10: [Promise.all] cancels nothing.  Once the loads were called and as
    long as no operation of [loadSettings] itself was rejected, letting its
    own operations succeed makes it emit a snapshot, whatever became of the
    other three loads; and on a device without enrolled biometrics the
    credential is then forgotten. *)
Theorem loadSettings_is_not_cancelled (configuration : Configuration)
        (w : World) (es : list Event) :
  Called IsEnrolledAsync ∈ history (state (launch configuration w es)) →
  (∀ c, c ∈ calledByLoadSettings →
        Returned c Failed ∉ history (state (launch configuration w es))) →
  is_Some (initialSettings
             (state (launch configuration w (es ++ loadSettingsSucceeds)))) ∧
  (enrolled w = false →
   password (world (state (launch configuration w
                                  (es ++ loadSettingsSucceeds)))) = None).
Proof.
  intros Hcalled Hnone. rewrite launch_app.
  destruct (launch_unjoined configuration w es)
    as (ph & h & Hl & Hwp & Hch & Hun).
  rewrite Hl in Hcalled, Hnone |- *. cbn [atPhase state history] in Hcalled, Hnone.
  pose proof (Chronicle_inOrder _ _ _ _ Hch) as Hh.
  rewrite Hh in Hcalled.
  destruct ph as [prevent|dv rp sc|cv ls im fo|hide]; cbn [inOrder] in *.
  - sift Hcalled.
  - sift Hcalled.
  - assert (∀ c, ls ≠ LsBroken c) as Hls.
    { intros c ->. destruct Hun as [_ Hc]. specialize (Hc c eq_refl).
      apply (Hnone c Hc). rewrite Hh. cbn [inOrder].
      rewrite !elem_of_app. do 3 right. left.
      unfold calledByLoadSettings in Hc.
      sift Hc; subst c; cbn; repeat first [rewrite elem_of_app | rewrite elem_of_cons]; eauto 20. }
    clear Hcalled Hnone Hh Hch Hun.
    destruct configuration as [sr], w as [vs pw prefs en sp].
    destruct ls as [| | | | |c]; [..|by destruct (Hls c)];
      cbn in Hwp; destruct cv, im, fo, en, sr; try discriminate Hwp;
      (split; [by eexists|by intros [=]]).
  - clear. destruct configuration as [sr], w as [vs pw prefs en sp].
    destruct hide, en, sr; (split; [by eexists|by intros [=]]).
Qed.

Lemma loadSettings_is_not_cancelled_witness :
  is_Some (initialSettings
             (state (launch (mkConfiguration false) (device false)
                            (imagesFail ++ loadSettingsSucceeds)))) ∧
  password (world (state (launch (mkConfiguration false) (device false)
                                 (imagesFail ++ loadSettingsSucceeds)))) = None.
Proof.
  assert (Called IsEnrolledAsync
            ∈ history (state (launch (mkConfiguration false) (device false)
                                     imagesFail))) as Hcalled.
  { vm_compute. listed. }
  assert (∀ c, c ∈ calledByLoadSettings →
               Returned c Failed
                 ∉ history (state (launch (mkConfiguration false)
                                          (device false) imagesFail)))
    as Hnone.
  { intros c Hc Hin. vm_compute in Hin. unfold calledByLoadSettings in Hc.
    sift Hc; subst c;
      repeat (apply elem_of_cons in Hin as [Hin|Hin]; [discriminate Hin|]);
      by apply elem_of_nil in Hin. }
  split.
  - apply (proj1 (loadSettings_is_not_cancelled (mkConfiguration false)
                    (device false) imagesFail Hcalled Hnone)).
  - apply (proj2 (loadSettings_is_not_cancelled (mkConfiguration false)
                    (device false) imagesFail Hcalled Hnone)).
    reflexivity.
Defined.

(** ** How often an operation is called *)

Lemma occurrences_cons (e x : Entry) (h : list Entry) :
  occurrences e (x :: h) =
    (if bool_decide (x = e) then 1 else 0) + occurrences e h.
Proof. unfold occurrences. cbn. by case_bool_decide. Qed.

Ltac tally :=
  rewrite ?occurrences_app;
  repeat rewrite occurrences_cons;
  change (occurrences ?e []) with 0;
  repeat case_bool_decide; simplify_eq; try lia.

Lemma calls_outcome (c c' : Extern) (p : Promise) :
  occurrences (Called c) (outcome c' p) = 0.
Proof. apply occurrences_absent. intros Hin. sift Hin. Qed.

Lemma calls_checkedSoFar (configuration : Configuration) (w0 : World)
      (c : Extern) (cv : Promise) :
  occurrences (Called c) (checkedSoFar configuration w0 cv) = 0.
Proof. apply occurrences_absent. intros Hin. sift Hin. Qed.

Lemma calls_reconciledSoFar (configuration : Configuration) (w0 : World)
      (c : Extern) (ls : Reconciling) :
  (occurrences (Called c) (reconciledSoFar configuration w0 ls) ≤ 1)%nat ∧
  (c ∉ [RemovePassword; GetPassword; GetConcealTokens] →
   occurrences (Called c) (reconciledSoFar configuration w0 ls) = 0).
Proof.
  split.
  - destruct w0 as [v p m [] s], ls as [| | | | |[]];
      cbn [reconciledSoFar]; unfold queried, removed; cbn [enrolled]; tally.
  - intros Hc. apply occurrences_absent. intros Hin. apply Hc.
    sift Hin; simplify_eq; listed.
Qed.

Lemma calls_inOrder (configuration : Configuration) (w0 : World) (ph : Phase)
      (c : Extern) :
  Called c ∈ inOrder configuration w0 ph → c ∈ calledByApp.
Proof.
  intros Hin. unfold calledByApp.
  destruct ph; cbn [inOrder] in Hin; sift Hin; simplify_eq; listed.
Qed.

Lemma removals_reconciledSoFar (configuration : Configuration) (w0 : World)
      (ls : Reconciling) :
  (ls = LsRemove ∨ ls = LsBroken RemovePassword → enrolled w0 = false) →
  (occurrences (Called RemovePassword) (reconciledSoFar configuration w0 ls)
   ≤ if enrolled w0 then 0 else 1)%nat.
Proof.
  intros Hwp.
  destruct (decide (Called RemovePassword
                      ∈ reconciledSoFar configuration w0 ls)) as [Hin|Hin].
  - destruct (reconciledSoFar_remove configuration w0 ls Hwp Hin) as [-> _].
    apply calls_reconciledSoFar.
  - rewrite occurrences_absent by done. lia.
Qed.

Lemma removals_emitted (configuration : Configuration) (w0 : World) :
  occurrences (Called RemovePassword)
              (reconciledSoFar configuration w0 LsEmitted)
  = if enrolled w0 then 0 else 1.
Proof.
  destruct w0 as [v p m [] s];
    cbn [reconciledSoFar]; unfold queried, removed; cbn [enrolled]; tally.
Qed.

(** X4: nothing is retried.  A launch calls only the eleven operations of
    [initialize] and its callees, each at most once, except that the
    credential may be removed twice: once by the reset and once more by
    [loadSettings] on a device without enrolled biometrics.  A launch that
    has run to its end has removed it exactly that often. *)
Theorem no_operation_is_retried (configuration : Configuration) (w : World)
        (es : list Event) :
  (∀ c, Called c ∈ history (state (launch configuration w es)) →
        c ∈ calledByApp) ∧
  (∀ c, c ≠ RemovePassword →
        (occurrences (Called c) (history (state (launch configuration w es)))
         ≤ 1)%nat) ∧
  (occurrences (Called RemovePassword)
               (history (state (launch configuration w es)))
   ≤ (if shouldReset configuration then 1 else 0) +
     (if enrolled w then 0 else 1))%nat ∧
  (finished (launch configuration w es) →
   occurrences (Called RemovePassword)
               (history (state (launch configuration w es)))
   = (if shouldReset configuration then 1 else 0) +
     (if enrolled w then 0 else 1)).
Proof.
  destruct (launch_inOrder configuration w es)
    as (ph & Hwp & Hch & Hh & Hmain & _).
  split_and!.
  - intros c Hin. rewrite Hh in Hin. by eapply calls_inOrder.
  - intros c Hne. rewrite (occurrences_Permutation _ _ _ Hh).
    assert (∀ ls, occurrences (Called c)
                              (reconciledSoFar configuration w ls) ≤ 1)%nat
      as Hle by (intros ls; apply calls_reconciledSoFar).
    assert (c ∉ [GetPassword; GetConcealTokens] →
            ∀ ls, occurrences (Called c)
                              (reconciledSoFar configuration w ls) = 0)
      as Hzero.
    { intros Hc ls. apply calls_reconciledSoFar. intros Hin. apply Hc.
      sift Hin; simplify_eq; listed. }
    destruct (decide (c ∈ [GetPassword; GetConcealTokens])) as [Hc|Hc].
    + clear Hzero.
      destruct configuration as [sr], ph as [prevent|dv rp sc|cv ls im fo|hide];
        cbn [inOrder shouldReset]; destruct sr;
        unfold splashHeld, resetCalled, loadsCalled;
        rewrite ?occurrences_app, ?occurrences_cons, ?calls_outcome,
          ?calls_checkedSoFar;
        change (occurrences (Called c) []) with 0;
        try (specialize (Hle ls)); try (specialize (Hle LsEmitted));
        sift Hc; subst c; repeat case_bool_decide; simplify_eq; lia.
    + specialize (Hzero Hc). clear Hle.
      destruct configuration as [sr], ph as [prevent|dv rp sc|cv ls im fo|hide];
        cbn [inOrder shouldReset]; destruct sr;
        unfold splashHeld, resetCalled, loadsCalled;
        rewrite ?occurrences_app, ?occurrences_cons, ?calls_outcome,
          ?calls_checkedSoFar, ?Hzero;
        change (occurrences (Called c) []) with 0;
        repeat case_bool_decide; simplify_eq; lia.
  - rewrite (occurrences_Permutation _ _ _ Hh).
    assert (∀ ls, (ls = LsRemove ∨ ls = LsBroken RemovePassword →
                   enrolled w = false) →
                  occurrences (Called RemovePassword)
                              (reconciledSoFar configuration w ls)
                  ≤ if enrolled w then 0 else 1)%nat
      as Hle by (intros ls; apply removals_reconciledSoFar).
    destruct configuration as [sr], ph as [prevent|dv rp sc|cv ls im fo|hide];
      cbn [inOrder shouldReset]; cbn [wellPlaced shouldReset] in Hwp;
      destruct sr; try discriminate Hwp;
      unfold splashHeld, resetCalled, loadsCalled;
      rewrite ?occurrences_app, ?occurrences_cons, ?calls_outcome,
        ?calls_checkedSoFar;
      change (occurrences (Called RemovePassword) []) with 0;
      try (assert (occurrences (Called RemovePassword)
                               (reconciledSoFar (mkConfiguration true) w ls)
                   ≤ if enrolled w then 0 else 1)%nat
            by (apply Hle; intros [->| ->]; exact Hwp));
      try (assert (occurrences (Called RemovePassword)
                               (reconciledSoFar (mkConfiguration false) w ls)
                   ≤ if enrolled w then 0 else 1)%nat
            by (apply Hle; intros [->| ->]; exact Hwp));
      try (rewrite removals_emitted);
      repeat case_bool_decide; simplify_eq; destruct (enrolled w); lia.
  - intros (Hfulfilled & _ & _). rewrite Hmain in Hfulfilled.
    rewrite (occurrences_Permutation _ _ _ Hh).
    destruct ph as [[]|dv rp sc|cv ls im fo|[]]; try done;
      try (by destruct Hch); try (by destruct cv, ls, im, fo).
    destruct configuration as [[]]; cbn [inOrder shouldReset];
      unfold splashHeld, resetCalled, loadsCalled;
      rewrite ?occurrences_app, ?occurrences_cons, ?calls_outcome,
        ?calls_checkedSoFar, removals_emitted;
      change (occurrences (Called RemovePassword) []) with 0;
      repeat case_bool_decide; simplify_eq; lia.
Qed.

Lemma no_operation_is_retried_witness :
  (occurrences (Called GetPassword)
               (history (state (launch (mkConfiguration true) (device false)
                                       allSucceed))) ≤ 1)%nat ∧
  occurrences (Called RemovePassword)
              (history (state (launch (mkConfiguration true) (device false)
                                      allSucceed))) = 2 ∧
  HideAsync ∈ calledByApp.
Proof.
  split_and!.
  - apply (proj1 (proj2 (no_operation_is_retried (mkConfiguration true)
                           (device false) allSucceed))).
    discriminate.
  - apply (proj2 (proj2 (proj2 (no_operation_is_retried
                                  (mkConfiguration true) (device false)
                                  allSucceed)))).
    vm_compute. done.
  - apply (proj1 (no_operation_is_retried (mkConfiguration true)
                    (device false) allSucceed)).
    vm_compute. listed.
Defined.

(** ** What a launch leaves alone *)

(** X13: a launch only ever deletes.  It never changes the enrollment,
    never creates a vault, a credential or a preference; the vault and the
    preferences change only by the reset, and the credential only by the
    reset or on a device without enrolled biometrics. *)
Theorem launch_only_deletes (configuration : Configuration) (w : World)
        (es : list Event) :
  enrolled (world (state (launch configuration w es))) = enrolled w ∧
  (vaultStored (world (state (launch configuration w es))) = vaultStored w ∨
   shouldReset configuration = true ∧
   vaultStored (world (state (launch configuration w es))) = false) ∧
  (password (world (state (launch configuration w es))) = password w ∨
   (shouldReset configuration = true ∨ enrolled w = false) ∧
   password (world (state (launch configuration w es))) = None) ∧
  (preferences (world (state (launch configuration w es))) = preferences w ∨
   shouldReset configuration = true ∧
   preferences (world (state (launch configuration w es))) = ∅).
Proof.
  destruct (launch_inOrder configuration w es)
    as (ph & Hwp & _ & _ & _ & -> & _).
  destruct configuration as [sr], w as [vs pw prefs en sp].
  destruct ph as [prevent|dv rp sc|cv ls im fo|hide];
    cbn [wellPlaced shouldReset] in Hwp; cbn.
  - auto.
  - subst sr. destruct dv, rp, sc; cbn; auto 10.
  - unfold passwordReconciled, passwordAtLoads, vaultAtLoads,
      preferencesAtLoads; cbn.
    destruct (reconciled ls), sr, en; cbn; auto 10.
  - unfold passwordReconciled, passwordAtLoads, vaultAtLoads,
      preferencesAtLoads; cbn.
    destruct sr, en; cbn; auto 10.
Qed.
